(** * Detail-page field aggregation of the Legistar scraper

    A shallow embedding of [legistar/base/detailview.py]: the text renderer,
    the detail visitor with its finalization step, and the field accessor,
    followed by the properties proved about them.

    Conventions of the embedding.
    - A Python [str] is a [string]; its characters are read as code points
      below 256, so ['\xa0'] is the character of code 160.
    - A tree node of the [visitors] package is a dictionary (tag, attributes,
      text and tail under string keys) together with its list of children.
    - A Python exception is a value of [exn]; a call that can raise returns
      a [res].
    - What the file imports but does not define (the descendant iterator and
      the parent link of the tree library, [urlparse], the configuration
      object, the accessor base class) is collected in the class [Env]. *)

From Stdlib Require Import String Ascii.
From stdpp Require Import base option list strings gmap fin_maps.

Local Open Scope string_scope.

(** ** Python strings *)

Module PyStr.

(** [str.isspace] on the code points below 256: tab to carriage return,
    the four separators 28..31, the space, NEL (133) and the no-break
    space (160). *)
Definition is_space (c : ascii) : bool :=
  let k := nat_of_ascii c in
  (((9 <=? k) && (k <=? 13)) || ((28 <=? k) && (k <=? 32))
   || (k =? 133) || (k =? 160))%nat.

Definition is_colon (c : ascii) : bool := Ascii.eqb c ":".

Definition is_empty (s : string) : bool :=
  match s with EmptyString => true | String _ _ => false end.

(** [s.lstrip(chars)], with the character set given as a predicate. *)
Fixpoint lstrip (p : ascii -> bool) (s : string) : string :=
  match s with
  | EmptyString => EmptyString
  | String c s' => if p c then lstrip p s' else s
  end.

(** [s.rstrip(chars)]. *)
Fixpoint rstrip (p : ascii -> bool) (s : string) : string :=
  match s with
  | EmptyString => EmptyString
  | String c s' =>
      let r := rstrip p s' in
      if p c && is_empty r then EmptyString else String c r
  end.

(** [s.strip(chars)]: every leading and every trailing character of the set
    is removed. *)
Definition strip_chars (p : ascii -> bool) (s : string) : string :=
  rstrip p (lstrip p s).

(** [s.strip()] *)
Definition strip (s : string) : string := strip_chars is_space s.

(** [s.strip(':')] *)
Definition strip_colon (s : string) : string := strip_chars is_colon s.

(** [s.replace('\xa0', ' ')] *)
Fixpoint replace_nbsp (s : string) : string :=
  match s with
  | EmptyString => EmptyString
  | String c s' =>
      String (if Ascii.eqb c "160" then " "%char else c) (replace_nbsp s')
  end.

(** A string that does not start with a character of the set: what
    [lstrip] leaves. *)
Definition clean_start (p : ascii -> bool) (s : string) : Prop :=
  match s with
  | EmptyString => True
  | String c _ => p c = false
  end.

End PyStr.

(** ** The three regular expressions of the visitor

    [re.search] returns the leftmost match; [.] matches every character but
    the line feed; [+] is greedy and [+?] is lazy. *)

Module Re.

Definition is_newline (c : ascii) : bool := Ascii.eqb c "010".

(** The remainder of [s] after the literal [lit], when [s] starts with it. *)
Fixpoint after_literal (lit s : string) : option string :=
  match lit, s with
  | EmptyString, _ => Some s
  | String a lit', String b s' =>
      if Ascii.eqb a b then after_literal lit' s' else None
  | String _ _, EmptyString => None
  end.

(** The longest prefix without a line feed: what a greedy [.*] takes when
    nothing follows it in the pattern. *)
Fixpoint dot_star (s : string) : string :=
  match s with
  | EmptyString => EmptyString
  | String c s' => if is_newline c then EmptyString else String c (dot_star s')
  end.

(** Group 1 of [(.+)] anchored at the start of [s]. *)
Definition dot_plus (s : string) : option string :=
  match dot_star s with
  | EmptyString => None
  | g => Some g
  end.

(** The characters before the first [X], when no line feed comes earlier. *)
Fixpoint until_X (s : string) : option string :=
  match s with
  | EmptyString => None
  | String c s' =>
      if Ascii.eqb c "X" then Some EmptyString
      else if is_newline c then None
      else String c <$> until_X s'
  end.

(** Group 1 of [(.+?)X] anchored at the start of [s]: one character (which
    may be an [X]), then as few more as possible up to an [X]. *)
Definition dot_plus_lazy_X (s : string) : option string :=
  match s with
  | EmptyString => None
  | String c s' => if is_newline c then None else String c <$> until_X s'
  end.

(** [re.search]: try the anchored match at each position, left to right. *)
Fixpoint search (anchored : string -> option string) (s : string)
  : option string :=
  match anchored s with
  | Some g => Some g
  | None =>
      match s with
      | EmptyString => None
      | String _ s' => search anchored s'
      end
  end.

(** [re.search(r'_hyp(.+)', s)], as group 1 of the match. *)
Definition search_hyp : string -> option string :=
  search (fun s => after_literal "_hyp" s ≫= dot_plus).

(** [re.search(r'_lbl(.+?)X', s)] *)
Definition search_lbl_X : string -> option string :=
  search (fun s => after_literal "_lbl" s ≫= dot_plus_lazy_X).

(** [re.search(r'_lbl(.+)', s)] *)
Definition search_lbl : string -> option string :=
  search (fun s => after_literal "_lbl" s ≫= dot_plus).

(** [re.search(r'_td(.+)', s)] *)
Definition search_td : string -> option string :=
  search (fun s => after_literal "_td" s ≫= dot_plus).

(** What a match of [lit(.+)] says about the identifier: it holds [lit],
    then the captured [key], which is not empty and has no line feed, and
    after it nothing or a line feed. *)
Definition captures (lit id key : string) : Prop :=
  exists pre post,
    id = pre +:+ lit +:+ key +:+ post /\
    key <> "" /\ dot_star key = key /\ dot_star post = "".

(** What a match of [lit(.+?)X] says: [lit], one character that is no line
    feed, then characters that are neither [X] nor a line feed, then [X]. *)
Definition captures_lazy (lit id key : string) : Prop :=
  exists pre post c k,
    id = pre +:+ lit +:+ key +:+ "X" +:+ post /\
    key = String c k /\ is_newline c = false /\
    Forall (fun a => Ascii.eqb a "X" = false /\ is_newline a = false)
      (list_ascii_of_string k).

End Re.

(** ** Exceptions *)

Inductive exn : Type :=
  | KeyError
  | IndexError
  | AttributeError
  | ValueError
  | RecursionError.

Inductive res (A : Type) : Type :=
  | Ok (a : A)
  | Raise (e : exn).

Arguments Ok {A} a.
Arguments Raise {A} e.

#[global] Instance res_ret : MRet res := fun A a => Ok a.
#[global] Instance res_bind : MBind res := fun A B f m =>
  match m with
  | Ok a => f a
  | Raise e => Raise e
  end.

Section Loops.
Context {A S : Type}.
Variable body : A -> S -> res S.

(** A [for] loop whose body can raise: the first exception ends it. *)
Fixpoint foldM (l : list A) (s : S) : res S :=
  match l with
  | [] => Ok s
  | x :: l' => s' ← body x s; foldM l' s'
  end.
End Loops.

(** ** Tree nodes *)

Unset Elimination Schemes.
Inductive Node : Type :=
  | mkNode (items : gmap string string) (children : list Node).
Set Elimination Schemes.

Definition items (n : Node) : gmap string string :=
  match n with mkNode i _ => i end.

Definition children (n : Node) : list Node :=
  match n with mkNode _ c => c end.

(** [key in node] *)
Definition has_key (key : string) (n : Node) : bool :=
  bool_decide (is_Some (items n !! key)).

(** [node[key]] *)
Definition getitem (key : string) (n : Node) : res string :=
  match items n !! key with
  | Some v => Ok v
  | None => Raise KeyError
  end.

(** [node.get(key, default)] *)
Definition get (key dflt : string) (n : Node) : string :=
  default dflt (items n !! key).

(** ** The text renderer *)

Module TextRenderer.

(** The instance state: the [io.StringIO] buffer, by its contents. *)
Record t : Type := { buf : string }.

(** [__init__] *)
Definition init : t := {| buf := "" |}.

(** [self.buf.write(s)] *)
Definition write (s : string) (self : t) : t := {| buf := buf self +:+ s |}.

Definition scrub_text (text : string) : string :=
  PyStr.strip (PyStr.replace_nbsp text).

(** [generic_visit] up to its [yield]. *)
Definition generic_visit_enter (n : Node) (self : t) : t :=
  let self := if PyStr.is_empty (buf self) then self else write " " self in
  write (scrub_text (get "text" "" n)) self.

(** [generic_visit] after its [yield]; the [Continue] it raises keeps the
    driver from walking the children a second time. *)
Definition generic_visit_exit (n : Node) (self : t) : t :=
  write (scrub_text (get "tail" "" n)) self.

(** The driver of the [visitors] package on a context-manager method: enter,
    walk the children in order, exit. *)
Fixpoint visit_nodes (n : Node) (self : t) : t :=
  match n with
  | mkNode _ ch =>
      generic_visit_exit n
        (fold_left (fun s c => visit_nodes c s) ch (generic_visit_enter n self))
  end.

Definition finalize (self : t) : string := buf self.

(** [self.visit(node)]: the instance after the call and the value returned. *)
Definition visit (self : t) (n : Node) : t * string :=
  let self' := visit_nodes n self in (self', finalize self').

(** The expression [TextRenderer().visit(node)]. *)
Definition render (n : Node) : string := (visit init n).2.

(** The separator [generic_visit] writes on entry, as a function of the
    buffer it finds. *)
Definition separator (b : string) : string :=
  if PyStr.is_empty b then "" else " ".

(** The renderer instances alive in a program, a reference being an index. *)
Abbreviation store := (list t).

(** [TextRenderer()]: a new instance, with the buffer [__init__] gives it. *)
Definition new (σ : store) : store * nat := ((σ ++ [init])%list, length σ).

(** [r.visit(node)] on the instance behind the reference [r]. *)
Definition call_visit (r : nat) (n : Node) (σ : store)
  : option (store * string) :=
  self ← σ !! r;
  let '(self', out) := visit self n in
  Some (<[r := self']> σ, out).

(** The statement [TextRenderer().visit(node)] run in a store. *)
Definition render_call (n : Node) (σ : store) : option (store * string) :=
  let '(σ', r) := new σ in call_visit r n σ'.

(** A reference function, not in the source: the text of a node as a plain
    recursion in which every descendant is preceded by one space. The
    renderer is compared with it below. *)
Fixpoint flat_text (n : Node) : string :=
  match n with
  | mkNode _ ch =>
      scrub_text (get "text" "" n)
      +:+ fold_right (fun c acc => " " +:+ flat_text c +:+ acc) "" ch
      +:+ scrub_text (get "tail" "" n)
  end.

End TextRenderer.

(** ** Partial field records

    The inner dictionaries of [DetailVisitor.data]: the only keys ever
    written are ['label'], ['node'] and ['url']. *)

Record PartialRecord : Type := {
  d_label : option string;
  d_node : option Node;
  d_url : option string
}.

(** The empty dictionary the [defaultdict] creates. *)
Definition empty_record : PartialRecord :=
  {| d_label := None; d_node := None; d_url := None |}.

Definition set_label (l : string) (d : PartialRecord) : PartialRecord :=
  {| d_label := Some l; d_node := d_node d; d_url := d_url d |}.

Definition set_node (n : Node) (d : PartialRecord) : PartialRecord :=
  {| d_label := d_label d; d_node := Some n; d_url := d_url d |}.

Definition set_url (u : string) (d : PartialRecord) : PartialRecord :=
  {| d_label := d_label d; d_node := d_node d; d_url := Some u |}.

(** Python truth values of the methods that return [True] or fall off
    their end. *)
Inductive flag : Type := PyTrue | PyNone.

(** ** The field accessor *)

Module DetailField.

Record t : Type := { data : PartialRecord }.

(** What the accessor uses and this file does not define. *)
Class Env : Type := {
  (** [node.find()]: the tree library's iteration over descendants. *)
  find : Node -> list Node;
  (** [node.parent]; [None] at the root. *)
  parent : Node -> option Node;
  (** [urlparse(url).path] *)
  urlparse_path : string -> res string;
  (** [cfg.MIMETYPE_GIF_PDF] *)
  MIMETYPE_GIF_PDF : string;
  (** The attribute [self.text], which [DetailField] reads and does not
      define: whatever the base class makes of it. *)
  text : t -> res (option string)
}.

Section Methods.
Context `{Env}.

(** The property [node]: [self.data['node']]. *)
Definition node (self : t) : res Node :=
  match d_node (data self) with
  | Some n => Ok n
  | None => Raise KeyError
  end.

Definition _is_blank_placeholder (text : option string) : flag :=
  match text with
  | Some s => if String.eqb s "Not available" then PyTrue else PyNone
  | None => PyNone
  end.

Definition get_text (self : t) : res (option string) :=
  n ← node self;
  let text := TextRenderer.render n in
  match _is_blank_placeholder (Some text) with
  | PyNone => Ok (Some text)
  | PyTrue => Ok None
  end.

Fixpoint get_url_loop (descendants : list Node) : option string :=
  match descendants with
  | [] => None
  | d :: rest =>
      match items d !! "href" with
      | Some href => Some href
      | None => get_url_loop rest
      end
  end.

Definition get_url (self : t) : res (option string) :=
  n ← node self;
  Ok (get_url_loop (find n)).

Definition is_blank (self : t) : res flag :=
  text ← text self;
  match _is_blank_placeholder text with
  | PyTrue => Ok PyTrue
  | PyNone => Ok PyNone
  end.

(** [.filter(tag='img')] *)
Definition filter_img (l : list Node) : list Node :=
  List.filter (fun d => bool_decide (items d !! "tag" = Some "img")) l.

Fixpoint get_mimetype_loop (imgs : list Node) : res (option string) :=
  match imgs with
  | [] => Ok None
  | descendant :: rest =>
      if negb (has_key "src" descendant) then get_mimetype_loop rest
      else
        gif_url ← getitem "src" descendant;
        path ← urlparse_path gif_url;
        let mimetypes : gmap string string :=
          {[ MIMETYPE_GIF_PDF := "application/pdf" ]} in
        match mimetypes !! path with
        | Some mimetype => Ok (Some mimetype)
        | None => Raise KeyError
        end
  end.

(** The first image of a list of descendants that has a ['src']. *)
Definition first_image (descendants : list Node) : option Node :=
  head (List.filter (has_key "src") (filter_img descendants)).

Definition get_mimetype (self : t) : res (option string) :=
  n ← node self;
  match parent n with
  | None => Raise AttributeError
  | Some p => get_mimetype_loop (filter_img (find p))
  end.

End Methods.

End DetailField.

(** ** The detail visitor *)

Module DetailVisitor.

(** [self.data], a [defaultdict(dict)]: slugs in insertion order, each with
    its record. *)
Abbreviation ddict := (list (string * PartialRecord)).

(** [self.data[key]] followed by an in-place change [f] of the record it
    returns: a missing key is first inserted, at the end, with an empty
    record. *)
Fixpoint modify (key : string) (f : PartialRecord -> PartialRecord)
    (d : ddict) : ddict :=
  match d with
  | [] => [(key, f empty_record)]
  | (k, r) :: d' =>
      if String.eqb k key then (k, f r) :: d'
      else (k, r) :: modify key f d'
  end.

(** The record of a slug, when there is one. *)
Fixpoint lookup (key : string) (d : ddict) : option PartialRecord :=
  match d with
  | [] => None
  | (k, r) :: d' => if String.eqb k key then Some r else lookup key d'
  end.

(** The change [visit_a] makes to the record of its slug. *)
Definition a_update (n : Node) (href : string) (data : PartialRecord)
  : PartialRecord :=
  let data := set_node n (set_url href data) in
  match d_label data with
  | None =>
      let label :=
        PyStr.strip_colon (PyStr.strip (TextRenderer.render n)) in
      set_label label data
  | Some _ => data
  end.

Definition visit_a (n : Node) (data : ddict) : res ddict :=
  if negb (has_key "id" n) then Ok data
  else if negb (has_key "href" n) then Ok data
  else
    id ← getitem "id" n;
    match Re.search_hyp id with
    | Some key =>
        href ← getitem "href" n;
        Ok (modify key (a_update n href) data)
    | None => Ok data
    end.

(** [node.children[0]] *)
Definition first_child (n : Node) : res Node :=
  match children n with
  | c :: _ => Ok c
  | [] => Raise IndexError
  end.

(** The label the first span rule computes. *)
Definition span_label (n : Node) : res string :=
  child ← first_child n;
  text ← getitem "text" child;
  Ok (PyStr.strip_colon (PyStr.strip text)).

Definition visit_span (n : Node) (data : ddict) : res ddict :=
  if negb (has_key "id" n) then Ok data
  else
    id ← getitem "id" n;
    match Re.search_lbl_X id with
    | Some key =>
        label ← span_label n;
        Ok (modify key (set_label label) data)
    | None =>
        match Re.search_lbl id with
        | Some key => Ok (modify key (set_node n) data)
        | None =>
            match Re.search_td id with
            | Some key => Ok (modify key (set_node n) data)
            | None => Ok data
            end
        end
    end.

Definition visit_td (n : Node) (data : ddict) : res ddict :=
  if negb (has_key "id" n) then Ok data
  else
    id ← getitem "id" n;
    match Re.search_td id with
    | None => Ok data
    | Some key => Ok (modify key (set_node n) data)
    end.

(** The tags for which [visit_<tag>] is a method the class inherits from
    [visitors.Visitor]: the traversal's own [visit_node] and
    [visit_nodes]. *)
Definition inherited_method (tag : string) : bool :=
  String.eqb tag "node" || String.eqb tag "nodes".

(** Dispatch on [get_nodekey]: the attribute [visit_<tag>] of the visitor,
    looked up by name, when there is one; the class has no
    [generic_visit]. The name finds the three handlers of the class and
    also the methods it inherits: dispatched to, these dispatch on the same
    node again, without end, until Python raises [RecursionError]. *)
Definition visit_node (n : Node) (data : ddict) : res ddict :=
  tag ← getitem "tag" n;
  if String.eqb tag "a" then visit_a n data
  else if String.eqb tag "span" then visit_span n data
  else if String.eqb tag "td" then visit_td n data
  else if inherited_method tag then Raise RecursionError
  else Ok data.

(** The driver of the [visitors] package: the node, then its children in
    order. *)
Fixpoint visit_nodes (n : Node) (data : ddict) : res ddict :=
  match n with
  | mkNode _ ch =>
      data' ← visit_node n data;
      foldM (fun c d => visit_nodes c d) ch data'
  end.

(** The nodes of a tree in the order the driver reaches them. *)
Fixpoint preorder (n : Node) : list Node :=
  match n with
  | mkNode _ ch => n :: flat_map preorder ch
  end.

(** The whole traversal, before [finalize]. *)
Definition traverse (root : Node) : res ddict := visit_nodes root [].

(** The slug whose ['node'] the visit of [n] assigns, if it assigns one:
    the anchor rule, the two value rules of a span, the cell rule. *)
Definition node_writer (n : Node) : option string :=
  match items n !! "tag", items n !! "id" with
  | Some tag, Some id =>
      if String.eqb tag "a" then
        if has_key "href" n then Re.search_hyp id else None
      else if String.eqb tag "span" then
        match Re.search_lbl_X id with
        | Some _ => None
        | None =>
            match Re.search_lbl id with
            | Some key => Some key
            | None => Re.search_td id
            end
        end
      else if String.eqb tag "td" then Re.search_td id
      else None
  | _, _ => None
  end.

(** The slug whose ['label'] the visit of [n] assigns without looking at
    the record: the first rule of a span. *)
Definition label_writer (n : Node) : option string :=
  match items n !! "tag", items n !! "id" with
  | Some tag, Some id =>
      if String.eqb tag "span" then Re.search_lbl_X id else None
  | _, _ => None
  end.

Definition label_of (d : ddict) (slug : string) : option string :=
  lookup slug d ≫= d_label.

Definition node_of (d : ddict) (slug : string) : option Node :=
  lookup slug d ≫= d_node.

(** The mapping [finalize] returns. The accessors created by [make_child]
    are objects: [objects] lists them in creation order and the mapping
    holds references, an accessor's reference being its index. *)
Record finalized : Type := {
  newdata : gmap string nat;
  objects : list DetailField.t
}.

Definition alias_of (id_attr : string) (data : PartialRecord) : string :=
  PyStr.strip_colon (default id_attr (d_label data)).

(** One turn of the loop of [finalize]. *)
Definition finalize_step (acc : finalized) (item : string * PartialRecord)
  : finalized :=
  let '(id_attr, data) := item in
  let alias := alias_of id_attr data in
  let value := length (objects acc) in
  let objs := (objects acc ++ [ {| DetailField.data := data |} ])%list in
  let newdata := <[alias := value]> (newdata acc) in
  let newdata :=
    if bool_decide (alias ≠ id_attr) then <[id_attr := value]> newdata
    else newdata in
  {| newdata := newdata; objects := objs |}.

Definition finalize (data : ddict) : finalized :=
  fold_left finalize_step data {| newdata := ∅; objects := [] |}.

(** [DetailVisitor(cfg).visit(G)] *)
Definition visit (root : Node) : res finalized :=
  data ← visit_nodes root [];
  Ok (finalize data).

(** The keys an item of [self.data] is stored under by [finalize]. *)
Definition writes (item : string * PartialRecord) (key : string) : bool :=
  bool_decide (key = alias_of item.1 item.2) || bool_decide (key = item.1).

(** Whether an item after position [i] is stored under [key]. *)
Definition written_later (data : ddict) (i : nat) (key : string) : bool :=
  existsb (fun item => writes item key) (drop (S i) data).

(** The accessor a key of the finalized mapping resolves to. *)
Definition resolve (r : finalized) (key : string) : option DetailField.t :=
  ref ← newdata r !! key; objects r !! ref.

(** An in-place change [f] of the accessor reached through [key]. *)
Definition update_via (r : finalized) (key : string)
    (f : DetailField.t -> DetailField.t) : finalized :=
  match newdata r !! key with
  | Some ref => {| newdata := newdata r; objects := alter f ref (objects r) |}
  | None => r
  end.

(** What one visit does to the dictionary, rule by rule. *)
Inductive effect (n : Node) (d : ddict) : ddict -> Prop :=
  | effect_none :
      node_writer n = None -> label_writer n = None -> effect n d d
  | effect_anchor key href :
      node_writer n = Some key -> label_writer n = None ->
      effect n d (modify key (a_update n href) d)
  | effect_value key :
      node_writer n = Some key -> label_writer n = None ->
      effect n d (modify key (set_node n) d)
  | effect_label key l :
      node_writer n = None -> label_writer n = Some key ->
      span_label n = Ok l ->
      effect n d (modify key (set_label l) d).


(** The rule a node falls under, with the slug it names: the branch of
    [visit_a], [visit_span] or [visit_td] that the visit of the node
    takes. *)
Inductive rule : Type :=
  | NoRule
  | AnchorRule (key href : string)
  | ValueRule (key : string)
  | LabelRule (key : string).

Definition rule_of (n : Node) : rule :=
  match items n !! "tag", items n !! "id" with
  | Some tag, Some id =>
      if String.eqb tag "a" then
        match items n !! "href", Re.search_hyp id with
        | Some href, Some key => AnchorRule key href
        | _, _ => NoRule
        end
      else if String.eqb tag "span" then
        match Re.search_lbl_X id with
        | Some key => LabelRule key
        | None =>
            match Re.search_lbl id with
            | Some key => ValueRule key
            | None =>
                match Re.search_td id with
                | Some key => ValueRule key
                | None => NoRule
                end
            end
        end
      else if String.eqb tag "td" then
        match Re.search_td id with
        | Some key => ValueRule key
        | None => NoRule
        end
      else NoRule
  | _, _ => NoRule
  end.

(** The slug whose record the visit of a node reads or creates. *)
Definition touched (n : Node) : option string :=
  match rule_of n with
  | NoRule => None
  | AnchorRule key _ | ValueRule key | LabelRule key => Some key
  end.

(** The strings of a list in the order of their first occurrence. *)
Definition first_seen (l : list string) : list string :=
  fold_left (fun acc k => if bool_decide (k ∈ acc) then acc
                          else (acc ++ [k])%list) l [].

Definition url_of (d : ddict) (slug : string) : option string :=
  lookup slug d ≫= d_url.

(** The keys [finalize] stores an item under, in the order it writes
    them. *)
Definition keys_of (item : string * PartialRecord) : list string :=
  let alias := alias_of item.1 item.2 in
  if bool_decide (alias ≠ item.1) then [alias; item.1] else [alias].

(** Whether the visit of a node takes the anchor rule for [slug]. *)
Definition anchors_slug (slug : string) (n : Node) : bool :=
  match rule_of n with
  | AnchorRule key _ => bool_decide (key = slug)
  | _ => false
  end.

(** The position of the last item that [finalize] stores under [key]. *)
Fixpoint last_writer (data : ddict) (key : string) : option nat :=
  match data with
  | [] => None
  | item :: rest =>
      match last_writer rest key with
      | Some j => Some (S j)
      | None => if writes item key then Some 0 else None
      end
  end.

(** Whether the visit of a node returns: the node has a tag, the tag does
    not name a method the class inherits and, when the node is a label
    span, it has a first child with a text. *)
Definition visitable (n : Node) : bool :=
  match items n !! "tag" with
  | None => false
  | Some tag =>
      match rule_of n with
      | NoRule => negb (inherited_method tag)
      | LabelRule _ =>
          match children n with
          | c :: _ => has_key "text" c
          | [] => false
          end
      | _ => true
      end
  end.

End DetailVisitor.

(** ** Sample data

    Small pages and records on which the statements below are evaluated. *)

Module Sample.

(** A node from its dictionary items and its children. *)
Definition nd (kv : list (string * string)) (ch : list Node) : Node :=
  mkNode (list_to_map kv) ch.

(** An anchor and a label span for the slug [Foo], then two value nodes. *)
Definition foo_anchor : Node :=
  nd [("tag", "a"); ("id", "ctl00_hypFoo"); ("href", "/foo.pdf");
      ("text", "First:")] [].

Definition foo_caption : Node := nd [("tag", "b"); ("text", " Second: ")] [].

Definition foo_label : Node :=
  nd [("tag", "span"); ("id", "ctl00_lblFooX")] [foo_caption].

Definition foo_cell : Node :=
  nd [("tag", "td"); ("id", "ctl00_tdFoo"); ("text", "v1")] [].

Definition foo_value : Node :=
  nd [("tag", "span"); ("id", "ctl00_lblFoo"); ("text", "v2")] [].

Definition foo_page : Node :=
  nd [("tag", "div")] [foo_anchor; foo_label; foo_cell; foo_value].

(** A value cell for the slug [B], then a label span that gives the slug
    [A] the label [B]. *)
Definition collide_cell : Node :=
  nd [("tag", "td"); ("id", "ctl00_tdB"); ("text", "value of B")] [].

Definition collide_label : Node :=
  nd [("tag", "span"); ("id", "ctl00_lblAX")]
     [nd [("tag", "b"); ("text", "B:")] []].

Definition collide_page : Node :=
  nd [("tag", "div")] [collide_cell; collide_label].

Definition record_B : PartialRecord :=
  {| d_label := None; d_node := Some collide_cell; d_url := None |}.

Definition record_A : PartialRecord :=
  {| d_label := Some "B"; d_node := None; d_url := None |}.

(** What the visitor accumulates on [collide_page]. *)
Definition collide_data : DetailVisitor.ddict :=
  [("B", record_B); ("A", record_A)].

(** Three sibling leaves, the middle one without text. *)
Definition leaf_a : Node := nd [("tag", "i"); ("text", "a")] [].
Definition leaf_blank : Node := nd [("tag", "br")] [].
Definition leaf_b : Node := nd [("tag", "i"); ("text", "b")] [].

Definition gap_page : Node := nd [("tag", "div")] [leaf_a; leaf_blank; leaf_b].

(** A field whose value node reads as the placeholder, one with an
    ordinary value, and one that has a label and no node. *)
Definition blank_node : Node :=
  nd [("tag", "span"); ("id", "ctl00_lblStatus"); ("text", " Not available ")]
     [].

Definition blank_field : DetailField.t :=
  {| DetailField.data :=
       {| d_label := Some "Status"; d_node := Some blank_node;
          d_url := None |} |}.

Definition plain_field : DetailField.t :=
  {| DetailField.data :=
       {| d_label := Some "Foo"; d_node := Some foo_cell; d_url := None |} |}.

Definition label_only_field : DetailField.t :=
  {| DetailField.data :=
       {| d_label := Some "Status"; d_node := None; d_url := None |} |}.

(** A cell that holds a link and the icon of its file type. *)
Definition icon_link : Node :=
  nd [("tag", "a"); ("id", "ctl00_hypAgenda"); ("href", "/agenda.pdf");
      ("text", "View Agenda")] [].

Definition icon_image : Node :=
  nd [("tag", "img"); ("src", "/Images/PDF.gif?v=2")] [].

Definition icon_cell : Node :=
  nd [("tag", "td")] [icon_link; nd [("tag", "img")] []; icon_image].

Definition icon_field : DetailField.t :=
  {| DetailField.data :=
       {| d_label := Some "View Agenda"; d_node := Some icon_link;
          d_url := Some "/agenda.pdf" |} |}.

(** [urlparse(url).path] for a URL that has neither scheme nor host: what
    comes before the first [?] or [#]. *)
Fixpoint path_of (url : string) : string :=
  match url with
  | EmptyString => EmptyString
  | String c url' =>
      if Ascii.eqb c "?" || Ascii.eqb c "#" then EmptyString
      else String c (path_of url')
  end.

(** An environment for the samples: descendants in document order, the
    node first; every node a child of [icon_cell]; the attribute [text]
    as given. *)
Definition env (text : DetailField.t -> res (option string))
  : DetailField.Env :=
  {| DetailField.find := DetailVisitor.preorder;
     DetailField.parent := fun _ => Some icon_cell;
     DetailField.urlparse_path := fun url => Ok (path_of url);
     DetailField.MIMETYPE_GIF_PDF := "/Images/PDF.gif";
     DetailField.text := text |}.

(** [text] as a property that returns [get_text()]. *)
Definition env_text_property : DetailField.Env := env DetailField.get_text.

(** [text] not defined at all. *)
Definition env_text_undefined : DetailField.Env :=
  env (fun _ => Raise AttributeError).

(** A label span without children. *)
Definition childless_label : Node :=
  nd [("tag", "span"); ("id", "ctl00_lblStatusX"); ("text", "Status:")] [].

Definition childless_page : Node :=
  nd [("tag", "div")] [foo_cell; childless_label; foo_anchor].

(** An anchor whose text starts with a colon. *)
Definition colon_anchor : Node :=
  nd [("tag", "a"); ("id", "ctl00_hypAgenda"); ("href", "/agenda.pdf");
      ("text", ":Agenda")] [].

(** A page without any identifier. *)
Definition plain_page : Node :=
  nd [("tag", "div"); ("text", "Agenda")]
     [nd [("tag", "p"); ("text", "No fields here")] []].

(** Two anchors for the slug [Doc] around a value cell, and no label
    span. *)
Definition doc_first : Node :=
  nd [("tag", "a"); ("id", "ctl00_hypDoc"); ("href", "/agenda.pdf");
      ("text", " Agenda: ")] [].

Definition doc_cell : Node :=
  nd [("tag", "td"); ("id", "ctl00_tdDoc"); ("text", "12 pages")] [].

Definition doc_second : Node :=
  nd [("tag", "a"); ("id", "ctl01_hypDoc"); ("href", "/minutes.pdf");
      ("text", "Minutes")] [].

Definition doc_page : Node :=
  nd [("tag", "div")] [doc_first; doc_cell; doc_second].

(** An accumulation whose keys are all different. *)
Definition status_record : PartialRecord :=
  {| d_label := None; d_node := Some blank_node; d_url := None |}.

Definition distinct_data : DetailVisitor.ddict :=
  [("A", record_A); ("Status:", status_record)].

(** A paragraph with two emphasised leaves. *)
Definition para : Node :=
  nd [("tag", "p"); ("text", " Meeting "); ("tail", " end ")]
     [nd [("tag", "b"); ("text", "of"); ("tail", "the")] [];
      nd [("tag", "i"); ("text", "Board")] []].

(** A page with an element whose tag is [node], after a value cell. *)
Definition node_element : Node := nd [("tag", "node")] [].

Definition node_page : Node :=
  nd [("tag", "div")] [foo_cell; node_element; foo_value].

End Sample.

(** * Properties *)

(** ** Loops and trees *)

Lemma bind_Ok {A B : Type} (m : res A) (f : A -> res B) (b : B) :
  m ≫= f = Ok b -> exists a, m = Ok a /\ f a = Ok b.
Proof. destruct m as [a|e]; [eauto | discriminate]. Qed.

Lemma foldM_app {A S : Type} (f : A -> S -> res S) (l1 l2 : list A) (s : S) :
  foldM f (l1 ++ l2)%list s = foldM f l1 s ≫= foldM f l2.
Proof.
  revert s. induction l1 as [|x l1 IH]; intros s; simpl; [done|].
  destruct (f x s) as [s'|e]; simpl; [apply IH | done].
Qed.

Lemma foldM_flat_map {A B S : Type} (f : B -> S -> res S) (g : A -> list B)
    (h : A -> S -> res S) (l : list A) (s : S) :
  Forall (fun a => forall s, h a s = foldM f (g a) s) l ->
  foldM h l s = foldM f (flat_map g l) s.
Proof.
  intros Hl. revert s. induction Hl as [|a l Ha _ IH]; intros s; simpl; [done|].
  rewrite foldM_app, Ha. destruct (foldM f (g a) s); simpl; [apply IH | done].
Qed.

(** Induction on a tree, with the property available on every child. *)
Lemma Node_ind (P : Node -> Prop) :
  (forall it ch, Forall P ch -> P (mkNode it ch)) -> forall n, P n.
Proof.
  intros step. fix IH 1. intros [it ch]. apply step.
  induction ch as [|c ch IHch]; constructor; [apply IH | apply IHch].
Qed.

(** ** The accumulation dictionary *)

Section Accumulation.
Import DetailVisitor.

Lemma has_key_Some (key : string) (n : Node) (v : string) :
  items n !! key = Some v -> has_key key n = true.
Proof. intros E. unfold has_key. rewrite E. by apply bool_decide_eq_true. Qed.

Lemma has_key_None (key : string) (n : Node) :
  items n !! key = None -> has_key key n = false.
Proof.
  intros E. unfold has_key. rewrite E. apply bool_decide_eq_false.
  by intros [? ?].
Qed.

Lemma lookup_modify_eq (key : string) f (d : ddict) :
  lookup key (modify key f d)
  = Some (f (default empty_record (lookup key d))).
Proof.
  induction d as [|[k r] d IH]; simpl.
  - by rewrite String.eqb_refl.
  - destruct (String.eqb k key) eqn:E; simpl; rewrite E; [done | apply IH].
Qed.

Lemma lookup_modify_ne (key k' : string) f (d : ddict) :
  k' <> key -> lookup k' (modify key f d) = lookup k' d.
Proof.
  intros Hne. induction d as [|[k r] d IH]; simpl.
  - destruct (String.eqb_spec key k'); [congruence | done].
  - destruct (String.eqb_spec k key) as [->|Hk]; simpl.
    + destruct (String.eqb_spec key k'); [congruence | done].
    + destruct (String.eqb_spec k k'); [done | apply IH].
Qed.

(** The driver is a loop over the nodes in pre-order. *)
Lemma visit_nodes_preorder (n : Node) (d : ddict) :
  visit_nodes n d = foldM visit_node (preorder n) d.
Proof.
  revert d. induction n as [it ch IH] using Node_ind. intros d. simpl.
  destruct (visit_node (mkNode it ch) d) as [d'|e]; simpl; [|done].
  apply (foldM_flat_map visit_node preorder). exact IH.
Qed.

(** Decides [node_writer] and [label_writer] from the case equations in
    the context. *)
Ltac writer_cases :=
  unfold node_writer, label_writer;
  repeat match goal with
         | E : _ = _ |- _ => rewrite E
         end;
  simpl; done.

Lemma visit_node_effect (n : Node) (d d' : ddict) :
  visit_node n d = Ok d' -> effect n d d'.
Proof.
  unfold visit_node, getitem.
  destruct (items n !! "tag") as [tag|] eqn:Etag; simpl; [|discriminate].
  destruct (String.eqb tag "a") eqn:Ea.
  { unfold visit_a, getitem.
    destruct (items n !! "id") as [id|] eqn:Eid.
    2:{ rewrite (has_key_None _ _ Eid). simpl. intros [= <-].
        apply effect_none; writer_cases. }
    rewrite (has_key_Some _ _ _ Eid). simpl.
    pose proof Ea as Ea'. apply String.eqb_eq in Ea' as ->.
    destruct (items n !! "href") as [href|] eqn:Ehref.
    2:{ pose proof (has_key_None _ _ Ehref) as Hh. rewrite Hh. simpl.
        intros [= <-]. apply effect_none; writer_cases. }
    pose proof (has_key_Some _ _ _ Ehref) as Hh. rewrite Hh. simpl.
    destruct (Re.search_hyp id) as [key|] eqn:Ehyp; simpl; intros [= <-].
    - apply effect_anchor; writer_cases.
    - apply effect_none; writer_cases. }
  destruct (String.eqb tag "span") eqn:Es.
  { unfold visit_span, getitem.
    destruct (items n !! "id") as [id|] eqn:Eid.
    2:{ rewrite (has_key_None _ _ Eid). simpl. intros [= <-].
        apply effect_none; writer_cases. }
    rewrite (has_key_Some _ _ _ Eid). simpl.
    destruct (Re.search_lbl_X id) as [key|] eqn:EX.
    - destruct (span_label n) as [l|e] eqn:El; simpl; intros [= <-].
      apply (effect_label n d key l); writer_cases.
    - destruct (Re.search_lbl id) as [key|] eqn:El.
      + intros [= <-]. apply effect_value; writer_cases.
      + destruct (Re.search_td id) as [key|] eqn:Etd; intros [= <-].
        * apply effect_value; writer_cases.
        * apply effect_none; writer_cases. }
  destruct (String.eqb tag "td") eqn:Et.
  { unfold visit_td, getitem.
    destruct (items n !! "id") as [id|] eqn:Eid.
    2:{ rewrite (has_key_None _ _ Eid). simpl. intros [= <-].
        apply effect_none; writer_cases. }
    rewrite (has_key_Some _ _ _ Eid). simpl.
    destruct (Re.search_td id) as [key|] eqn:Etd; intros [= <-].
    - apply effect_value; writer_cases.
    - apply effect_none; writer_cases. }
  destruct (inherited_method tag); [done|]. intros [= <-].
  apply effect_none; destruct (items n !! "id") eqn:Eid; writer_cases.
Qed.

Lemma label_of_modify (key slug : string) f (d : ddict) :
  label_of (modify key f d) slug
  = if decide (slug = key)
    then d_label (f (default empty_record (lookup key d)))
    else label_of d slug.
Proof.
  unfold label_of. case_decide as E.
  - subst. by rewrite lookup_modify_eq.
  - by rewrite lookup_modify_ne.
Qed.

Lemma node_of_modify (key slug : string) f (d : ddict) :
  node_of (modify key f d) slug
  = if decide (slug = key)
    then d_node (f (default empty_record (lookup key d)))
    else node_of d slug.
Proof.
  unfold node_of. case_decide as E.
  - subst. by rewrite lookup_modify_eq.
  - by rewrite lookup_modify_ne.
Qed.

Lemma a_update_node (n : Node) (href : string) (r : PartialRecord) :
  d_node (a_update n href r) = Some n.
Proof. unfold a_update. simpl. by destruct (d_label r). Qed.

Lemma a_update_url (n : Node) (href : string) (r : PartialRecord) :
  d_url (a_update n href r) = Some href.
Proof. unfold a_update. simpl. by destruct (d_label r). Qed.

Lemma a_update_label (n : Node) (href : string) (r : PartialRecord) :
  d_label (a_update n href r)
  = Some (default (PyStr.strip_colon (PyStr.strip (TextRenderer.render n)))
                  (d_label r)).
Proof.
  unfold a_update. simpl. destruct (d_label r) eqn:E; simpl; by rewrite ?E.
Qed.

(** A visit that is not a label span for [slug] keeps the label [slug]
    has. *)
Lemma effect_label_kept (n : Node) (d d' : ddict) (slug l : string) :
  effect n d d' -> label_writer n <> Some slug ->
  label_of d slug = Some l -> label_of d' slug = Some l.
Proof.
  intros He Hw Hl. destruct He as [| key href _ _ | key _ _ | key l' _ Hk _];
    [done | rewrite label_of_modify; case_decide as E; [subst|done] ..].
  - rewrite a_update_label. unfold label_of in Hl.
    destruct (lookup key d) as [r|]; simpl in *; [|done]. by rewrite Hl.
  - unfold label_of in Hl.
    destruct (lookup key d) as [r|]; simpl in *; done.
  - congruence.
Qed.

(** A label span for [slug] sets the label, whatever the record held. *)
Lemma effect_label_set (n : Node) (d d' : ddict) (slug : string) :
  effect n d d' -> label_writer n = Some slug ->
  exists l, span_label n = Ok l /\ label_of d' slug = Some l.
Proof.
  intros He Hw. destruct He as [? Hn | ? ? ? Hn | ? ? Hn | key l' _ Hk Hs];
    try congruence.
  assert (key = slug) as -> by congruence.
  exists l'. split; [done|]. rewrite label_of_modify. by case_decide.
Qed.

Lemma effect_node_set (n : Node) (d d' : ddict) (slug : string) :
  effect n d d' -> node_writer n = Some slug -> node_of d' slug = Some n.
Proof.
  intros He Hw. destruct He as [Hn | key href Hk _ | key Hk _ | ? ? Hn];
    try congruence;
    assert (key = slug) as -> by congruence;
    rewrite node_of_modify; case_decide; try done.
  apply a_update_node.
Qed.

Lemma effect_node_kept (n : Node) (d d' : ddict) (slug : string) :
  effect n d d' -> node_writer n <> Some slug ->
  node_of d' slug = node_of d slug.
Proof.
  intros He Hw. destruct He as [| key href Hk _ | key Hk _ | key l _ _ _];
    [done | rewrite node_of_modify; case_decide as E; [subst|done] ..].
  - congruence.
  - congruence.
  - unfold node_of. by destruct (lookup key d).
Qed.

Lemma foldM_label_kept (post : list Node) (d d' : ddict) (slug l : string) :
  foldM visit_node post d = Ok d' ->
  Forall (fun m => label_writer m <> Some slug) post ->
  label_of d slug = Some l -> label_of d' slug = Some l.
Proof.
  intros Hf Hp. revert d Hf.
  induction Hp as [|m post Hm _ IH]; intros d Hf Hl; simpl in Hf.
  - by injection Hf as <-.
  - apply bind_Ok in Hf as (d1 & Hv & Hf).
    apply (IH d1 Hf). apply visit_node_effect in Hv.
    by apply (effect_label_kept m d).
Qed.

Lemma foldM_node_kept (post : list Node) (d d' : ddict) (slug : string) :
  foldM visit_node post d = Ok d' ->
  Forall (fun m => node_writer m <> Some slug) post ->
  node_of d' slug = node_of d slug.
Proof.
  intros Hf Hp. revert d Hf.
  induction Hp as [|m post Hm _ IH]; intros d Hf; simpl in Hf.
  - by injection Hf as <-.
  - apply bind_Ok in Hf as (d1 & Hv & Hf).
    rewrite (IH d1 Hf). apply visit_node_effect in Hv.
    by apply (effect_node_kept m d).
Qed.

(** A visit raises only on a node without tag, on a label span, or on a
    tag that names an inherited method. *)
Lemma visit_node_raises (n : Node) (d : ddict) (e : exn) :
  visit_node n d = Raise e ->
  items n !! "tag" = None \/ is_Some (label_writer n)
  \/ exists tag, items n !! "tag" = Some tag /\ inherited_method tag = true.
Proof.
  unfold visit_node, getitem.
  destruct (items n !! "tag") as [tag|] eqn:Etag; simpl; [|by left].
  intros Hr. right. unfold label_writer. rewrite Etag.
  destruct (String.eqb tag "a") eqn:Ea.
  { exfalso. revert Hr. unfold visit_a, getitem.
    destruct (items n !! "id") as [id|] eqn:Eid.
    2:{ by rewrite (has_key_None _ _ Eid). }
    rewrite (has_key_Some _ _ _ Eid). simpl.
    destruct (items n !! "href") as [href|] eqn:Ehref.
    2:{ by rewrite (has_key_None _ _ Ehref). }
    rewrite (has_key_Some _ _ _ Ehref). simpl.
    by destruct (Re.search_hyp id). }
  destruct (String.eqb tag "span") eqn:Es.
  { left. revert Hr. unfold visit_span, getitem.
    destruct (items n !! "id") as [id|] eqn:Eid.
    2:{ by rewrite (has_key_None _ _ Eid). }
    rewrite (has_key_Some _ _ _ Eid). simpl.
    destruct (Re.search_lbl_X id); [eauto|].
    destruct (Re.search_lbl id); [done|]. by destruct (Re.search_td id). }
  destruct (String.eqb tag "td").
  { exfalso. revert Hr. unfold visit_td, getitem.
    destruct (items n !! "id") as [id|] eqn:Eid.
    2:{ by rewrite (has_key_None _ _ Eid). }
    rewrite (has_key_Some _ _ _ Eid). simpl. by destruct (Re.search_td id). }
  destruct (inherited_method tag) eqn:Ei; [|done]. right. by exists tag.
Qed.

(** A property of the dictionary that every visit keeps holds at the end
    of the loop. *)
Lemma foldM_visit_invariant (P : ddict -> Prop) (l : list Node) (d d' : ddict) :
  (forall n d0 d1, n ∈ l -> effect n d0 d1 -> P d0 -> P d1) ->
  P d -> foldM visit_node l d = Ok d' -> P d'.
Proof.
  revert d. induction l as [|n l IH]; intros d Hstep Hd Hf; simpl in Hf.
  - by injection Hf as <-.
  - apply bind_Ok in Hf as (d1 & Hv & Hf).
    apply (IH d1); [| |done].
    + intros m d0 d2 Hm. apply Hstep. by right.
    + apply (Hstep n d d1); [by left | by apply visit_node_effect | done].
Qed.

Lemma search_anchored f (s g : string) :
  Re.search f s = Some g -> exists s', f s' = Some g.
Proof.
  induction s as [|c s IH]; simpl.
  - destruct (f "") eqn:E; [intros [= <-]; eauto | done].
  - destruct (f (String c s)) eqn:E; [intros [= <-]; eauto | done].
Qed.

Lemma dot_plus_nonempty (s g : string) : Re.dot_plus s = Some g -> g <> "".
Proof. unfold Re.dot_plus. destruct (Re.dot_star s); [done|]. by intros [= <-]. Qed.

Lemma dot_plus_lazy_X_nonempty (s g : string) :
  Re.dot_plus_lazy_X s = Some g -> g <> "".
Proof.
  destruct s as [|c s]; simpl; [done|].
  destruct (Re.is_newline c); [done|].
  destruct (Re.until_X s); simpl; [|done]. by intros [= <-].
Qed.

Lemma search_literal_nonempty (lit : string) f (s g : string) :
  (forall s g, f s = Some g -> g <> "") ->
  Re.search (fun s => Re.after_literal lit s ≫= f) s = Some g -> g <> "".
Proof.
  intros Hf Hs. apply search_anchored in Hs as [s' Hs].
  destruct (Re.after_literal lit s') as [rest|]; simpl in Hs; [|done].
  by apply (Hf rest).
Qed.

Lemma node_writer_nonempty (n : Node) (key : string) :
  node_writer n = Some key -> key <> "".
Proof.
  unfold node_writer.
  destruct (items n !! "tag") as [tag|]; [|done].
  destruct (items n !! "id") as [id|]; [|done].
  destruct (String.eqb tag "a").
  { destruct (has_key "href" n); [|done].
    apply search_literal_nonempty, dot_plus_nonempty. }
  destruct (String.eqb tag "span").
  { destruct (Re.search_lbl_X id); [done|].
    destruct (Re.search_lbl id) as [k|] eqn:E.
    - intros [= <-]. revert E.
      apply search_literal_nonempty, dot_plus_nonempty.
    - apply search_literal_nonempty, dot_plus_nonempty. }
  destruct (String.eqb tag "td"); [|done].
  apply search_literal_nonempty, dot_plus_nonempty.
Qed.

Lemma label_writer_nonempty (n : Node) (key : string) :
  label_writer n = Some key -> key <> "".
Proof.
  unfold label_writer.
  destruct (items n !! "tag") as [tag|]; [|done].
  destruct (items n !! "id") as [id|]; [|done].
  destruct (String.eqb tag "span"); [|done].
  apply search_literal_nonempty, dot_plus_lazy_X_nonempty.
Qed.

Lemma modify_keys (key : string) f (d : ddict) :
  (modify key f d).*1
  = if bool_decide (key ∈ d.*1) then d.*1 else (d.*1 ++ [key])%list.
Proof.
  induction d as [|[k r] d IH]; [done|]. cbn [modify].
  destruct (String.eqb_spec k key) as [->|Hk]; rewrite !fmap_cons; cbn [fst].
  - rewrite bool_decide_eq_true_2; [done | by left].
  - rewrite IH. destruct (decide (key ∈ d.*1)) as [Hin|Hin].
    + rewrite !bool_decide_eq_true_2; [done | by right | done].
    + rewrite !bool_decide_eq_false_2; [done | | done].
      intros [?|?]%elem_of_cons; congruence.
Qed.

Lemma effect_keys (n : Node) (d d' : ddict) :
  effect n d d' ->
  (d'.*1 = d.*1)
  \/ (exists key,
        key <> "" /\ (key ∉ d.*1) /\ d'.*1 = (d.*1 ++ [key])%list).
Proof.
  intros He.
  assert (Hm : forall key f, key <> "" ->
            ((modify key f d).*1 = d.*1)
            \/ (exists k, k <> "" /\ (k ∉ d.*1)
                  /\ (modify key f d).*1 = (d.*1 ++ [k])%list)).
  { intros key f Hne. rewrite modify_keys. case_bool_decide; [by left|].
    right. by exists key. }
  destruct He as [| key href Hk _ | key Hk _ | key l _ Hk _]; [by left|..];
    apply Hm; eauto using node_writer_nonempty, label_writer_nonempty.
Qed.

End Accumulation.

(** ** Accumulation over the traversal *)

Section Traversal.
Import DetailVisitor.

(** C2 (as amended). Over the pre-order traversal of a tree, at the visit
    of a node [n]: a rule that assigns ['node'] for a slug wins over every
    earlier one, and its node is the final one when no later node assigns
    it again; the label rule of a span assigns ['label'] whatever the
    record holds; and a label that is set is kept by every later visit
    that is not a label span for the same slug, the anchor rule
    included. *)
Theorem label_and_node_accumulation
    (root : Node) (final : ddict) (pre post : list Node) (n : Node)
    (slug : string) :
  traverse root = Ok final ->
  preorder root = (pre ++ n :: post)%list ->
  exists before after,
    foldM visit_node pre [] = Ok before /\
    visit_node n before = Ok after /\
    foldM visit_node post after = Ok final /\
    (node_writer n = Some slug ->
     node_of after slug = Some n /\
     (Forall (fun m => node_writer m <> Some slug) post ->
      node_of final slug = Some n)) /\
    (label_writer n = Some slug ->
     exists l, span_label n = Ok l /\ label_of after slug = Some l) /\
    (forall l, label_of after slug = Some l ->
     Forall (fun m => label_writer m <> Some slug) post ->
     label_of final slug = Some l) /\
    (forall l, label_of before slug = Some l ->
     label_writer n <> Some slug -> label_of after slug = Some l).
Proof.
  unfold traverse. rewrite visit_nodes_preorder. intros Ht Hsplit.
  rewrite Hsplit, foldM_app in Ht. apply bind_Ok in Ht as (before & Hpre & Ht).
  simpl in Ht. apply bind_Ok in Ht as (after & Hn & Hpost).
  exists before, after. repeat split; try done.
  - apply visit_node_effect in Hn. by apply (effect_node_set n before).
  - intros Hp. rewrite (foldM_node_kept post after final slug Hpost Hp).
    apply visit_node_effect in Hn. by apply (effect_node_set n before).
  - intros Hw. apply visit_node_effect in Hn.
    by apply (effect_label_set n before).
  - intros l Hl Hp. by apply (foldM_label_kept post after).
  - intros l Hl Hw. apply visit_node_effect in Hn.
    by apply (effect_label_kept n before).
Qed.

(** On the sample page the last value node is the final ['node'] of
    [Foo], and the label the span set survives the two value nodes. *)
Lemma label_and_node_accumulation_witness :
  exists final,
    traverse Sample.foo_page = Ok final /\
    node_of final "Foo" = Some Sample.foo_value /\
    label_of final "Foo" = Some "Second".
Proof.
  destruct (traverse Sample.foo_page) as [final|e] eqn:Ht;
    [|vm_compute in Ht; discriminate].
  exists final. split; [reflexivity|].
  destruct (label_and_node_accumulation Sample.foo_page final
              [Sample.foo_page; Sample.foo_anchor; Sample.foo_label;
               Sample.foo_caption; Sample.foo_cell]
              [] Sample.foo_value "Foo" Ht eq_refl)
    as (before & after & Hb & Ha & Hf & Hnode & _ & _ & Hkept).
  split.
  - apply Hnode; [vm_compute; reflexivity | constructor].
  - simpl in Hf. injection Hf as <-. apply Hkept.
    + vm_compute in Hb. injection Hb as <-. vm_compute. reflexivity.
    + vm_compute. discriminate.
Defined.

(** C2, counterexample. The anchor sets the label of [Foo] to [First];
    the label span that comes later replaces it with [Second]. *)
Lemma label_overwritten_by_later_span :
  exists mid final,
    foldM visit_node [Sample.foo_page; Sample.foo_anchor] [] = Ok mid /\
    label_of mid "Foo" = Some "First" /\
    label_writer Sample.foo_label = Some "Foo" /\
    traverse Sample.foo_page = Ok final /\
    label_of final "Foo" = Some "Second".
Proof.
  do 2 eexists. split; [vm_compute; reflexivity|].
  split; [vm_compute; reflexivity|].
  split; [vm_compute; reflexivity|].
  split; vm_compute; reflexivity.
Qed.

Lemma traverse_keys (root : Node) (final : ddict) :
  traverse root = Ok final ->
  NoDup final.*1 /\ Forall (fun slug => slug <> "") final.*1.
Proof.
  unfold traverse. rewrite visit_nodes_preorder.
  apply (foldM_visit_invariant
           (fun d => NoDup d.*1 /\ Forall (fun slug => slug <> "") d.*1)).
  - intros n d0 d1 _ He [Hnd Hne].
    destruct (effect_keys n d0 d1 He) as [->|(key & Hk & Hnew & ->)]; [done|].
    split.
    + apply NoDup_app. split; [done|]. split; [|apply NoDup_singleton].
      intros k Hin ->%list_elem_of_singleton. done.
    + apply Forall_app. split; [done|]. by constructor.
  - split; [constructor | constructor].
Qed.

(** X1. Every slug the traversal records is a non-empty string. *)
Theorem slugs_nonempty (root : Node) (final : ddict) (slug : string)
    (record : PartialRecord) :
  traverse root = Ok final -> lookup slug final = Some record -> slug <> "".
Proof.
  intros Ht Hl. apply traverse_keys in Ht as [_ Hne].
  rewrite Forall_forall in Hne. apply Hne. clear Hne.
  induction final as [|[k r] final IH]; simpl in *; [done|].
  destruct (String.eqb_spec k slug) as [->|_]; [by left | right; auto].
Qed.

(** The slug [Foo] of the sample page. *)
Lemma slugs_nonempty_witness :
  exists final record,
    traverse Sample.foo_page = Ok final /\
    lookup "Foo" final = Some record /\ "Foo" <> "".
Proof.
  destruct (traverse Sample.foo_page) as [final|e] eqn:Ht;
    [|vm_compute in Ht; discriminate].
  destruct (lookup "Foo" final) as [record|] eqn:Hl.
  2:{ vm_compute in Ht. injection Ht as <-. vm_compute in Hl. discriminate. }
  exists final, record. split; [reflexivity|]. split; [exact Hl|].
  exact (slugs_nonempty Sample.foo_page final "Foo" record Ht Hl).
Defined.

(** X2. The accumulation holds each slug once: it is a dictionary. *)
Theorem slugs_distinct (root : Node) (final : ddict) :
  traverse root = Ok final -> NoDup final.*1.
Proof. intros Ht. by apply traverse_keys in Ht as [? _]. Qed.

(** The two slugs of the colliding page. *)
Lemma slugs_distinct_witness :
  exists final,
    traverse Sample.collide_page = Ok final /\ NoDup final.*1.
Proof.
  exists Sample.collide_data.
  assert (Ht : traverse Sample.collide_page = Ok Sample.collide_data)
    by (vm_compute; reflexivity).
  split; [exact Ht|].
  exact (slugs_distinct Sample.collide_page Sample.collide_data Ht).
Defined.

Lemma visit_node_no_field (n : Node) (d : ddict) (tag : string) :
  items n !! "tag" = Some tag -> inherited_method tag = false ->
  node_writer n = None -> label_writer n = None -> visit_node n d = Ok d.
Proof.
  intros Htag Hplain Hn Hl. destruct (visit_node n d) as [d'|e] eqn:Hv.
  - apply visit_node_effect in Hv.
    destruct Hv; congruence.
  - apply visit_node_raises in Hv as [Hv|[[k Hv]|(t & Ht & Hi)]]; congruence.
Qed.

(** X3. A tree in which every node has a tag, no tag names a method the
    visitor inherits, and no node matches a rule gives the empty
    mapping. *)
Theorem no_field_nodes_empty_result (root : Node) :
  (forall n, n ∈ preorder root ->
     (exists tag, items n !! "tag" = Some tag
                  /\ inherited_method tag = false)
     /\ node_writer n = None /\ label_writer n = None) ->
  visit root = Ok {| newdata := ∅; objects := [] |}.
Proof.
  intros Hall. unfold visit. rewrite visit_nodes_preorder.
  assert (Hf : forall d, foldM visit_node (preorder root) d = Ok d).
  { induction (preorder root) as [|n l IH]; intros d; simpl; [done|].
    destruct (Hall n) as ((tag & Ht & Hp) & Hn & Hl); [by left|].
    rewrite (visit_node_no_field n d tag Ht Hp Hn Hl). simpl.
    apply IH. intros m Hm. apply Hall. by right. }
  by rewrite Hf.
Qed.

(** A page of plain text. *)
Lemma no_field_nodes_empty_result_witness :
  visit Sample.plain_page = Ok {| newdata := ∅; objects := [] |}.
Proof.
  apply no_field_nodes_empty_result. intros n Hn.
  repeat (apply elem_of_cons in Hn as [->|Hn];
          [vm_compute; eauto|]).
  by apply elem_of_nil in Hn.
Defined.

End Traversal.

(** ** Finalization *)

Section Finalization.
Import DetailVisitor.

Lemma finalize_step_objects acc item :
  objects (finalize_step acc item)
  = (objects acc ++ [ {| DetailField.data := item.2 |} ])%list.
Proof. by destruct item. Qed.

Lemma finalize_step_lookup acc item (key : string) :
  newdata (finalize_step acc item) !! key
  = if writes item key then Some (length (objects acc))
    else newdata acc !! key.
Proof.
  destruct item as [id_attr data]. unfold writes, finalize_step. simpl.
  repeat case_bool_decide; simpl; rewrite ?lookup_insert;
    repeat case_decide; congruence.
Qed.

Lemma finalize_objects (data : ddict) acc :
  objects (fold_left finalize_step data acc)
  = (objects acc
     ++ ((fun item => {| DetailField.data := item.2 |}) <$> data))%list.
Proof.
  revert acc. induction data as [|item data IH]; intros acc; simpl.
  - by rewrite app_nil_r.
  - rewrite IH, finalize_step_objects. by rewrite <- app_assoc.
Qed.

(** Keys no item writes are left as they were. *)
Lemma finalize_not_written (data : ddict) acc (key : string) :
  existsb (fun item => writes item key) data = false ->
  newdata (fold_left finalize_step data acc) !! key = newdata acc !! key.
Proof.
  revert acc. induction data as [|item data IH]; intros acc Hw; [done|].
  simpl in *. apply orb_false_iff in Hw as [Hi Hd].
  rewrite (IH _ Hd), finalize_step_lookup. by rewrite Hi.
Qed.

(** A reference found after the loop is either the one the key had before
    it, no item having written the key, or that of an accessor the loop
    created. *)
Lemma finalize_lookup_cases (data : ddict) acc (key : string) (v : nat) :
  newdata (fold_left finalize_step data acc) !! key = Some v ->
  (newdata acc !! key = Some v
   /\ existsb (fun item => writes item key) data = false)
  \/ length (objects acc) <= v.
Proof.
  revert acc. induction data as [|item data IH]; intros acc Hv; simpl in *.
  - by left.
  - destruct (IH _ Hv) as [[Hs Hd]|Hge].
    + rewrite finalize_step_lookup in Hs.
      destruct (writes item key); simpl.
      * right. injection Hs as <-. lia.
      * by left.
    + right. rewrite finalize_step_objects, length_app in Hge. simpl in Hge.
      lia.
Qed.

Lemma finalize_refs_bounded (data : ddict) acc :
  (forall key v, newdata acc !! key = Some v -> v < length (objects acc)) ->
  forall key v,
    newdata (fold_left finalize_step data acc) !! key = Some v ->
    v < length (objects (fold_left finalize_step data acc)).
Proof.
  revert acc. induction data as [|item data IH]; intros acc Hb; [done|].
  simpl. apply IH. intros key v. rewrite finalize_step_lookup.
  rewrite finalize_step_objects, length_app. simpl.
  destruct (writes item key).
  - intros [= <-]. lia.
  - intros Hv. apply Hb in Hv. lia.
Qed.

(** A change made through one key is seen through every key that holds
    the same reference. *)
Lemma update_via_shared (r : finalized) (k1 k2 : string) (ref : nat) f :
  newdata r !! k1 = Some ref -> newdata r !! k2 = Some ref ->
  resolve (update_via r k1 f) k2 = f <$> resolve r k2.
Proof.
  intros H1 H2. unfold resolve, update_via. rewrite H1. simpl.
  rewrite H2. simpl. apply list_lookup_alter_eq.
Qed.

(** C1 (as amended). The item at position [i] of the accumulation gets
    one accessor, the [i]-th created. The result holds it under the
    label-derived key (the label, or the slug when there is no label,
    without its leading and trailing colons) unless a later item is stored
    under that key, and under the raw slug unless a later item is stored
    under it; both keys then hold the same reference, so that a change
    made through one is seen through the other. No other key ever holds
    it, and a key a later item writes does not. *)
Theorem finalize_keys
    (data : ddict) (i : nat) (slug : string) (record : PartialRecord) :
  data !! i = Some (slug, record) ->
  let r := finalize data in
  let alias := alias_of slug record in
  objects r !! i = Some {| DetailField.data := record |} /\
  (written_later data i alias = false -> newdata r !! alias = Some i) /\
  (written_later data i slug = false -> newdata r !! slug = Some i) /\
  (written_later data i alias = false -> written_later data i slug = false ->
   forall f, resolve (update_via r alias f) slug
             = Some (f {| DetailField.data := record |})) /\
  (forall key, newdata r !! key = Some i ->
     (key = alias \/ key = slug) /\ written_later data i key = false).
Proof.
  intros Hi r alias. subst r alias.
  assert (Hlen : i < length data) by (by eapply lookup_lt_Some).
  pose proof (take_drop_middle data i _ Hi) as Hsplit.
  unfold finalize, written_later.
  set (init := {| newdata := ∅; objects := [] |}).
  set (post := drop (S i) data) in *.
  set (acc1 := fold_left finalize_step (take i data) init).
  assert (Hacc1 : length (objects acc1) = i).
  { unfold acc1. rewrite finalize_objects. simpl.
    rewrite length_fmap, length_take. lia. }
  assert (Hfold : fold_left finalize_step data init
                  = fold_left finalize_step post
                      (finalize_step acc1 (slug, record))).
  { rewrite <- Hsplit at 1. by rewrite fold_left_app. }
  assert (Hown : forall key, writes (slug, record) key = true ->
            existsb (fun item => writes item key) post = false ->
            newdata (fold_left finalize_step data init) !! key = Some i).
  { intros key Hw Hp. rewrite Hfold, (finalize_not_written _ _ _ Hp).
    rewrite finalize_step_lookup, Hw. by rewrite Hacc1. }
  assert (Hobj : objects (fold_left finalize_step data init) !! i
                 = Some {| DetailField.data := record |}).
  { rewrite finalize_objects. simpl. by rewrite list_lookup_fmap, Hi. }
  assert (Halias : writes (slug, record) (alias_of slug record) = true).
  { unfold writes. simpl. by rewrite (bool_decide_eq_true_2 _ eq_refl). }
  assert (Hslug : writes (slug, record) slug = true).
  { unfold writes. simpl.
    rewrite (bool_decide_eq_true_2 (slug = slug) eq_refl). apply orb_true_r. }
  split; [exact Hobj|]. split; [by apply Hown|]. split; [by apply Hown|].
  split.
  - intros Ha Hs f.
    rewrite (update_via_shared (fold_left finalize_step data init)
               (alias_of slug record) slug i f) by (by apply Hown).
    unfold resolve. rewrite (Hown slug Hslug Hs). simpl. by rewrite Hobj.
  - intros key Hk. rewrite Hfold in Hk.
    apply finalize_lookup_cases in Hk as [[Hk Hp]|Hge].
    2:{ rewrite finalize_step_objects, length_app in Hge. simpl in Hge. lia. }
    split; [|done]. rewrite finalize_step_lookup in Hk.
    destruct (writes (slug, record) key) eqn:Hw.
    + unfold writes in Hw. simpl in Hw.
      apply orb_true_iff in Hw as [Hw|Hw]; apply bool_decide_eq_true_1 in Hw;
        auto.
    + exfalso. apply (finalize_refs_bounded (take i data) init) in Hk.
      * fold acc1 in Hk. lia.
      * intros k v. simpl. by rewrite lookup_empty.
Qed.

(** On the accumulation of the colliding page the second item keeps both
    of its keys. *)
Lemma finalize_keys_witness :
  objects (finalize Sample.collide_data) !! 1
    = Some {| DetailField.data := Sample.record_A |} /\
  newdata (finalize Sample.collide_data) !! "B" = Some 1 /\
  newdata (finalize Sample.collide_data) !! "A" = Some 1 /\
  resolve (update_via (finalize Sample.collide_data) "B"
             (fun _ => {| DetailField.data := empty_record |})) "A"
    = Some {| DetailField.data := empty_record |}.
Proof.
  destruct (finalize_keys Sample.collide_data 1 "A" Sample.record_A eq_refl)
    as (Hobj & Halias & Hslug & Hshared & _).
  split; [exact Hobj|]. split; [|split].
  - apply Halias. reflexivity.
  - apply Hslug. reflexivity.
  - apply (Hshared eq_refl eq_refl).
Defined.

(** C1, counterexample. On [collide_page] the visitor accumulates a
    record for the slug [B], and no key of the finalized mapping resolves
    to it: the key [B] was overwritten by the slug [A], whose label is
    [B]. *)
Lemma slug_record_dropped_by_finalize :
  traverse Sample.collide_page = Ok Sample.collide_data /\
  lookup "B" Sample.collide_data = Some Sample.record_B /\
  exists r,
    visit Sample.collide_page = Ok r /\
    resolve r "B" = Some {| DetailField.data := Sample.record_A |} /\
    forall key,
      resolve r key <> Some {| DetailField.data := Sample.record_B |}.
Proof.
  assert (Ht : traverse Sample.collide_page = Ok Sample.collide_data)
    by (vm_compute; reflexivity).
  split; [exact Ht|]. split; [reflexivity|].
  exists (finalize Sample.collide_data). split.
  { unfold visit. fold (traverse Sample.collide_page). by rewrite Ht. }
  split; [vm_compute; reflexivity|].
  intros key. unfold resolve.
  destruct (newdata (finalize Sample.collide_data) !! key) as [ref|] eqn:Hk;
    simpl; [|done].
  destruct ref as [|[|ref]].
  - destruct (finalize_keys Sample.collide_data 0 "B" Sample.record_B eq_refl)
      as (_ & _ & _ & _ & Honly).
    apply Honly in Hk as [[->| ->] Hlate]; vm_compute in Hlate; discriminate.
  - vm_compute. discriminate.
  - apply (finalize_refs_bounded Sample.collide_data
             {| newdata := ∅; objects := [] |}) in Hk.
    + vm_compute in Hk. lia.
    + intros k v. simpl. by rewrite lookup_empty.
Qed.

End Finalization.

(** ** The text renderer *)

Section Rendering.
Import TextRenderer.

Lemma append_assoc (a b c : string) : (a +:+ b) +:+ c = a +:+ b +:+ c.
Proof.
  induction a as [|x a IH]; [done|].
  change (String x ((a +:+ b) +:+ c) = String x (a +:+ b +:+ c)).
  by rewrite IH.
Qed.

Lemma append_nil_r (a : string) : a +:+ "" = a.
Proof.
  induction a as [|x a IH]; [done|].
  change (String x (a +:+ "") = String x a). by rewrite IH.
Qed.

Lemma is_empty_true (a : string) : PyStr.is_empty a = true <-> a = "".
Proof. by destruct a. Qed.

Lemma is_empty_append (a b : string) :
  PyStr.is_empty (a +:+ b) = PyStr.is_empty a && PyStr.is_empty b.
Proof. by destruct a. Qed.

Lemma separator_nonempty (b : string) : b <> "" -> separator b = " ".
Proof. unfold separator. by destruct b. Qed.

Lemma generic_visit_enter_buf (n : Node) (self : t) :
  buf (generic_visit_enter n self)
  = buf self +:+ separator (buf self) +:+ scrub_text (get "text" "" n).
Proof.
  unfold generic_visit_enter, separator.
  destruct (PyStr.is_empty (buf self)); cbn [write buf]; [done|].
  by rewrite append_assoc.
Qed.

(** Walking a list of siblings only appends to the buffer. *)
Lemma children_grow (ch : list Node) :
  Forall (fun c => forall s, exists r, buf (visit_nodes c s) = buf s +:+ r) ch ->
  forall s, exists r,
    buf (fold_left (fun s c => visit_nodes c s) ch s) = buf s +:+ r
    /\ (ch = [] -> r = "").
Proof.
  induction 1 as [|c ch Hc _ IH]; intros s; simpl.
  - exists "". by rewrite append_nil_r.
  - destruct (Hc s) as [r1 E1]. destruct (IH (visit_nodes c s)) as (r2 & E2 & _).
    exists (r1 +:+ r2). split; [|done]. by rewrite E2, E1, append_assoc.
Qed.

(** Visiting a node appends its separator, its text, what its children
    give and its tail. *)
Lemma visit_nodes_buf (n : Node) (self : t) :
  exists rest,
    buf (visit_nodes n self)
    = buf self +:+ separator (buf self)
      +:+ scrub_text (get "text" "" n) +:+ rest
    /\ (children n = [] -> rest = scrub_text (get "tail" "" n)).
Proof.
  revert self. induction n as [it ch IH] using Node_ind. intros self.
  assert (Hch : Forall (fun c => forall s, exists r,
                   buf (visit_nodes c s) = buf s +:+ r) ch).
  { eapply Forall_impl; [exact IH|]. intros c Hc s.
    destruct (Hc s) as (rest & E & _). eexists. exact E. }
  destruct (children_grow ch Hch (generic_visit_enter (mkNode it ch) self))
    as (r & E & Hnil).
  exists (r +:+ scrub_text (get "tail" "" (mkNode it ch))). split.
  - simpl. rewrite E, generic_visit_enter_buf. by rewrite !append_assoc.
  - simpl. intros ->. by rewrite (Hnil eq_refl).
Qed.

Lemma visit_nodes_keeps_content (n : Node) (self : t) :
  buf self <> "" \/ scrub_text (get "text" "" n) <> "" ->
  buf (visit_nodes n self) <> "".
Proof.
  intros Hne. destruct (visit_nodes_buf n self) as (rest & E & _).
  rewrite E. intros Hempty. apply is_empty_true in Hempty.
  rewrite !is_empty_append in Hempty.
  apply andb_true_iff in Hempty as [Hbuf Hempty].
  apply andb_true_iff in Hempty as [_ Hempty].
  apply andb_true_iff in Hempty as [Htext _].
  destruct Hne as [Hne|Hne]; by apply Hne, is_empty_true.
Qed.

(** The buffer after the visit of a node, in the four parts the visit
    writes: separator, scrubbed text, what the children write, scrubbed
    tail. *)
Lemma visit_nodes_parts (n : Node) (self : t) :
  exists mid,
    buf (fold_left (fun s c => visit_nodes c s) (children n)
           (generic_visit_enter n self))
    = buf (generic_visit_enter n self) +:+ mid
    /\ buf (visit_nodes n self)
       = buf self +:+ separator (buf self)
         +:+ scrub_text (get "text" "" n) +:+ mid
         +:+ scrub_text (get "tail" "" n)
    /\ (children n = [] -> mid = "").
Proof.
  assert (Hch : Forall (fun c => forall s, exists r,
                   buf (visit_nodes c s) = buf s +:+ r) (children n)).
  { apply Forall_forall. intros c _ s.
    destruct (visit_nodes_buf c s) as (rest & E & _). eexists. exact E. }
  destruct (children_grow _ Hch (generic_visit_enter n self))
    as (mid & E & Hnil).
  exists mid. split; [exact E|]. split; [|exact Hnil].
  destruct n as [it ch]. cbn [children] in E. cbn [visit_nodes].
  unfold generic_visit_exit, write. cbn [buf].
  rewrite E, generic_visit_enter_buf. by rewrite !append_assoc.
Qed.

(** C3 (as amended). Two siblings [n1], [n2] rendered one after the other
    into one buffer. The visit of each appends, in this order and with
    nothing in between: its separator, its scrubbed text, what its
    children write ([mid1], [mid2]; nothing for a leaf) and its scrubbed
    tail, so a tail has no space before it. The separator of [n2] is one
    space exactly when the buffer holds anything when [n2] is reached and
    is empty otherwise; the buffer holds something as soon as the text
    of [n1] is not empty or the buffer was not empty before. The
    separator does not depend on the text of [n2], so a node whose
    scrubbed text is empty still gets its space. *)
Theorem sibling_separator (self : t) (n1 n2 : Node) :
  let s1 := visit_nodes n1 self in
  let entered := generic_visit_enter n2 s1 in
  let walk := fold_left (fun s c => visit_nodes c s) in
  exists mid1 mid2,
    buf s1
    = buf self +:+ separator (buf self)
      +:+ scrub_text (get "text" "" n1) +:+ mid1
      +:+ scrub_text (get "tail" "" n1)
    /\ (children n1 = [] -> mid1 = "")
    /\ buf entered
       = buf s1 +:+ separator (buf s1) +:+ scrub_text (get "text" "" n2)
    /\ buf (walk (children n2) entered) = buf entered +:+ mid2
    /\ (children n2 = [] -> mid2 = "")
    /\ buf (walk [n1; n2] self)
       = buf s1 +:+ separator (buf s1)
         +:+ scrub_text (get "text" "" n2) +:+ mid2
         +:+ scrub_text (get "tail" "" n2)
    /\ (buf s1 <> "" -> separator (buf s1) = " ")
    /\ (buf s1 = "" -> separator (buf s1) = "")
    /\ (scrub_text (get "text" "" n1) <> "" -> separator (buf s1) = " ")
    /\ (buf self <> "" -> separator (buf s1) = " ").
Proof.
  intros s1 entered walk.
  destruct (visit_nodes_parts n1 self) as (mid1 & _ & E1 & Hleaf1).
  destruct (visit_nodes_parts n2 s1) as (mid2 & Ewalk & E2 & Hleaf2).
  exists mid1, mid2.
  split; [exact E1|]. split; [exact Hleaf1|].
  split; [apply generic_visit_enter_buf|].
  split; [exact Ewalk|]. split; [exact Hleaf2|].
  split; [exact E2|].
  split; [apply separator_nonempty|].
  split; [by intros ->|].
  split; intros Hne; apply separator_nonempty, visit_nodes_keeps_content;
    auto.
Qed.

(** After the leaf [a], the leaf without text adds one space and nothing
    else. *)
Lemma sibling_separator_witness :
  buf (fold_left (fun s c => visit_nodes c s)
         [Sample.leaf_a; Sample.leaf_blank] init) = "a ".
Proof.
  destruct (sibling_separator init Sample.leaf_a Sample.leaf_blank)
    as (mid1 & mid2 & _ & _ & _ & _ & Hleaf & E & _ & _ & Hsep & _).
  rewrite E, (Hleaf eq_refl), Hsep; [reflexivity|].
  vm_compute. discriminate.
Defined.

(** C3, counterexample. The leaf without text between [a] and [b] is
    rendered as two spaces in a row. *)
Lemma blank_sibling_doubles_space :
  scrub_text (get "text" "" Sample.leaf_blank) = "" /\
  render Sample.gap_page = "a  b".
Proof. split; vm_compute; reflexivity. Qed.

(** A node without children renders as its scrubbed text directly
    followed by its scrubbed tail. *)
Theorem render_leaf (n : Node) :
  children n = [] ->
  render n = scrub_text (get "text" "" n) +:+ scrub_text (get "tail" "" n).
Proof.
  intros Hleaf. destruct (visit_nodes_buf n init) as (rest & E & Hrest).
  unfold render, visit, finalize. simpl. rewrite E, (Hrest Hleaf). done.
Qed.

(** The placeholder node, whose text has a space on each side. *)
Lemma render_leaf_witness :
  render Sample.blank_node = "Not available".
Proof. rewrite (render_leaf Sample.blank_node eq_refl). reflexivity. Defined.

Lemma render_call_fresh (n : Node) (σ : store) :
  render_call n σ = Some ((σ ++ [visit_nodes n init])%list, render n).
Proof.
  unfold render_call, new, call_visit, render, visit.
  rewrite list_lookup_middle by done. simpl. f_equal. f_equal.
  rewrite insert_app_r_alt, Nat.sub_diag by done. done.
Qed.

(** C4. Whatever renderer instances a program holds, rendering a node
    twice, each time by [TextRenderer().visit(node)], gives the same
    string both times: each call works on the instance it creates. *)
Theorem render_idempotent (n : Node) (σ : store) :
  exists σ1 σ2 out,
    render_call n σ = Some (σ1, out) /\
    render_call n σ1 = Some (σ2, out) /\
    out = render n.
Proof.
  exists (σ ++ [visit_nodes n init])%list. eexists. exists (render n).
  by rewrite !render_call_fresh.
Qed.

(** By contrast an instance that is visited a second time still holds
    the text of the first visit. *)
Remark reused_instance_accumulates :
  exists σ1 σ2,
    call_visit 0 Sample.leaf_a [init] = Some (σ1, "a") /\
    call_visit 0 Sample.leaf_a σ1 = Some (σ2, "a a").
Proof. do 2 eexists. split; vm_compute; reflexivity. Qed.

End Rendering.

(** ** The field accessor *)

Section Accessor.
Import DetailField.
Context `{Env}.

(** C5. With a node in place, [get_text] returns nothing exactly when
    the text just rendered is the placeholder, and the rendered text
    otherwise. *)
Theorem get_text_placeholder (self : t) (n : Node) :
  d_node (data self) = Some n ->
  let rendered := TextRenderer.render n in
  (get_text self = Ok None <-> rendered = "Not available") /\
  (rendered <> "Not available" -> get_text self = Ok (Some rendered)).
Proof.
  intros Hn rendered. unfold get_text, node. rewrite Hn. simpl.
  fold rendered. destruct (String.eqb_spec rendered "Not available");
    split; try done; intros; congruence.
Qed.

Lemma get_url_loop_None (l : list Node) :
  get_url_loop l = None <-> Forall (fun d => items d !! "href" = None) l.
Proof.
  induction l as [|d l IH]; simpl; [by rewrite Forall_nil|].
  rewrite Forall_cons. destruct (items d !! "href"); [|tauto].
  split; [done | by intros [? _]].
Qed.

Lemma get_url_loop_Some (l : list Node) (href : string) :
  get_url_loop l = Some href
  <-> exists l1 d l2,
        l = (l1 ++ d :: l2)%list /\
        Forall (fun d => items d !! "href" = None) l1 /\
        items d !! "href" = Some href.
Proof.
  induction l as [|d l IH]; simpl.
  - split; [done|]. intros (l1 & d & l2 & Hl & _). by destruct l1.
  - destruct (items d !! "href") as [h|] eqn:E.
    + split.
      * intros [= ->]. by exists [], d, l.
      * intros ([|d1 l1] & d' & l2 & Hl & Hl1 & Hd); injection Hl as <- ->.
        -- congruence.
        -- apply Forall_cons in Hl1 as [Hd1 _]. congruence.
    + rewrite IH. split.
      * intros (l1 & d' & l2 & -> & Hl1 & Hd).
        exists (d :: l1), d', l2. by repeat split; [constructor|].
      * intros ([|d1 l1] & d' & l2 & Hl & Hl1 & Hd); injection Hl as <- ->.
        -- congruence.
        -- apply Forall_cons in Hl1 as [_ Hl1]. by exists l1, d', l2.
Qed.

(** C6 (as amended). On a record without ['node'] the accessors raise
    the [KeyError] of the ['node'] lookup. With a node they return:
    [get_text] nothing when the node renders as the placeholder and the
    rendered text otherwise; [get_url] the link target of the first node
    that has one among those [find] yields, and nothing exactly when none
    of them has one. *)
Theorem accessors_need_node (self : t) :
  (d_node (data self) = None ->
   get_text self = Raise KeyError /\ get_url self = Raise KeyError) /\
  (forall n, d_node (data self) = Some n ->
   let rendered := TextRenderer.render n in
   (exists v, get_text self = Ok v) /\
   get_url self = Ok (get_url_loop (find n)) /\
   (rendered = "Not available" -> get_text self = Ok None) /\
   (rendered <> "Not available" -> get_text self = Ok (Some rendered)) /\
   (get_url self = Ok None
    <-> Forall (fun d => items d !! "href" = None) (find n)) /\
   (forall href,
      get_url self = Ok (Some href)
      <-> exists l1 d l2,
            find n = (l1 ++ d :: l2)%list /\
            Forall (fun d => items d !! "href" = None) l1 /\
            items d !! "href" = Some href)).
Proof.
  split.
  - intros Hn. unfold get_text, get_url, node. by rewrite Hn.
  - intros n Hn rendered. unfold get_text, get_url, node. rewrite Hn. simpl.
    fold rendered.
    split; [destruct (String.eqb rendered "Not available"); eauto|].
    split; [done|].
    split; [by intros ->|].
    split; [intros Hne; by destruct (String.eqb_spec rendered "Not available")|].
    split.
    + rewrite <- get_url_loop_None. split; [by intros [= ->] | by intros ->].
    + intros href. rewrite <- get_url_loop_Some.
      split; [by intros [= ->] | by intros ->].
Qed.

Lemma get_mimetype_loop_first (imgs : list Node) :
  get_mimetype_loop imgs
  = match head (List.filter (has_key "src") imgs) with
    | None => Ok None
    | Some img =>
        gif_url ← getitem "src" img;
        path ← urlparse_path gif_url;
        match ({[ MIMETYPE_GIF_PDF := "application/pdf" ]}
                 : gmap string string) !! path with
        | Some mimetype => Ok (Some mimetype)
        | None => Raise KeyError
        end
    end.
Proof.
  induction imgs as [|d imgs IH]; simpl; [done|].
  destruct (has_key "src" d); simpl; [done | apply IH].
Qed.

(** C8. [get_mimetype] looks, among the descendants of the parent of the
    node, at the first image that has a source: without one it returns
    nothing; when the path of its source is the configured marker it
    returns [application/pdf]; for any other path it raises
    [KeyError]. *)
Theorem get_mimetype_cases (self : t) (n p : Node) :
  d_node (data self) = Some n ->
  parent n = Some p ->
  match first_image (find p) with
  | None => get_mimetype self = Ok None
  | Some img =>
      items img !! "tag" = Some "img" /\
      exists src,
        items img !! "src" = Some src /\
        forall path, urlparse_path src = Ok path ->
          (path = MIMETYPE_GIF_PDF ->
           get_mimetype self = Ok (Some "application/pdf")) /\
          (path <> MIMETYPE_GIF_PDF ->
           get_mimetype self = Raise KeyError)
  end.
Proof.
  intros Hn Hp. unfold get_mimetype, node, first_image.
  rewrite Hn. simpl. rewrite Hp, get_mimetype_loop_first.
  destruct (head _) as [img|] eqn:Himg; [|done].
  apply head_Some_elem_of in Himg.
  apply list_elem_of_In, filter_In in Himg as [Himg Hsrc].
  apply filter_In in Himg as [_ Htag].
  apply bool_decide_eq_true_1 in Htag. split; [done|].
  unfold has_key in Hsrc. apply bool_decide_eq_true_1 in Hsrc as [src Hsrc].
  exists src. split; [done|]. intros path Hpath.
  unfold getitem. rewrite Hsrc. simpl. rewrite Hpath. simpl.
  split.
  - intros ->. by rewrite lookup_singleton_eq.
  - intros Hne. by rewrite lookup_singleton_ne.
Qed.

End Accessor.

Section AccessorSamples.
Import DetailField.

(** The placeholder field reads as nothing, the plain one as its text. *)
Lemma get_text_placeholder_witness :
  get_text Sample.blank_field = Ok None /\
  get_text Sample.plain_field = Ok (Some "v1").
Proof.
  split.
  - apply (get_text_placeholder Sample.blank_field Sample.blank_node eq_refl).
    vm_compute. reflexivity.
  - apply (get_text_placeholder Sample.plain_field Sample.foo_cell eq_refl).
    vm_compute. discriminate.
Defined.

(** Without a node [get_url] raises; on the link it returns the target. *)
Lemma accessors_need_node_witness :
  @get_url Sample.env_text_undefined Sample.label_only_field
    = Raise KeyError /\
  @get_url Sample.env_text_undefined Sample.icon_field
    = Ok (Some "/agenda.pdf").
Proof.
  destruct (@accessors_need_node Sample.env_text_undefined
              Sample.label_only_field) as [Hnone _].
  destruct (@accessors_need_node Sample.env_text_undefined
              Sample.icon_field) as [_ Hsome].
  split.
  - apply Hnone. reflexivity.
  - destruct (Hsome Sample.icon_link eq_refl) as (_ & _ & _ & _ & _ & Hfirst).
    apply Hfirst. exists [], Sample.icon_link, [].
    split; [reflexivity|]. split; [constructor | reflexivity].
Defined.

(** C6, counterexample. A record that has a label and never received a
    node: both accessors raise. *)
Lemma label_only_record_raises :
  d_label (data Sample.label_only_field) = Some "Status" /\
  d_node (data Sample.label_only_field) = None /\
  get_text Sample.label_only_field = Raise KeyError /\
  @get_url Sample.env_text_undefined Sample.label_only_field
    = Raise KeyError.
Proof. repeat split. Qed.

(** The second image of the cell is the first with a source, and its path
    is the marker. *)
Lemma get_mimetype_cases_witness :
  @get_mimetype Sample.env_text_undefined Sample.icon_field
  = Ok (Some "application/pdf").
Proof.
  pose proof (@get_mimetype_cases Sample.env_text_undefined
                Sample.icon_field Sample.icon_link Sample.icon_cell
                eq_refl eq_refl) as Hcases.
  change (first_image (find Sample.icon_cell))
    with (Some Sample.icon_image) in Hcases.
  destruct Hcases as (_ & src & Hsrc & Hpath).
  vm_compute in Hsrc. injection Hsrc as <-.
  apply (Hpath "/Images/PDF.gif"); reflexivity.
Defined.

(** C7, at the failing input. The node of the field renders as the
    placeholder, and [is_blank] does not report it: with [text] a
    property that returns [get_text()] the placeholder has already
    become [None], and with [text] undefined the call raises. *)
Lemma is_blank_misses_placeholder :
  TextRenderer.render Sample.blank_node = "Not available" /\
  @is_blank Sample.env_text_property Sample.blank_field = Ok PyNone /\
  @is_blank Sample.env_text_undefined Sample.blank_field
    = Raise AttributeError.
Proof. repeat split; vm_compute; reflexivity. Qed.

(** [is_blank] is true exactly when the attribute [text] is the
    placeholder; the node is not rendered. *)
Lemma is_blank_true_iff `{Env} (self : t) :
  is_blank self = Ok PyTrue <-> text self = Ok (Some "Not available").
Proof.
  unfold is_blank, _is_blank_placeholder.
  destruct (text self) as [[v|]|e]; simpl; [|done..].
  destruct (String.eqb_spec v "Not available"); split; intros; congruence.
Qed.

End AccessorSamples.

(** ** The handlers of the visitor *)

Section Handlers.
Import DetailVisitor.

(** C9 (as amended). An anchor without identifier, without link target,
    or whose identifier does not match [_hyp<slug>], changes nothing.
    Otherwise the record of the slug gets the link target as ['url'] and
    the anchor as ['node']; its ['label'] is kept when it has one, and is
    otherwise the rendered text of the anchor, stripped of surrounding
    white space and then of every colon at its start and at its end. No
    other record changes. *)
Theorem visit_a_effect (n : Node) (data : ddict) :
  (items n !! "id" = None \/ items n !! "href" = None
   \/ (exists id, items n !! "id" = Some id /\ Re.search_hyp id = None) ->
   visit_a n data = Ok data) /\
  (forall id href key,
     items n !! "id" = Some id -> items n !! "href" = Some href ->
     Re.search_hyp id = Some key ->
     exists data',
       visit_a n data = Ok data' /\
       lookup key data'
       = Some {| d_label :=
                   Some (default
                           (PyStr.strip_colon
                              (PyStr.strip (TextRenderer.render n)))
                           (label_of data key));
                 d_node := Some n;
                 d_url := Some href |} /\
       forall k, k <> key -> lookup k data' = lookup k data).
Proof.
  split.
  - unfold visit_a, getitem.
    destruct (items n !! "id") as [id|] eqn:Eid.
    2:{ by rewrite (has_key_None _ _ Eid). }
    rewrite (has_key_Some _ _ _ Eid). simpl.
    destruct (items n !! "href") as [href|] eqn:Ehref.
    2:{ by rewrite (has_key_None _ _ Ehref). }
    rewrite (has_key_Some _ _ _ Ehref). simpl.
    intros [?|[?|(id' & [= <-] & Hhyp)]]; [done..|]. by rewrite Hhyp.
  - intros id href key Eid Ehref Ehyp. unfold visit_a, getitem.
    rewrite (has_key_Some _ _ _ Eid), (has_key_Some _ _ _ Ehref), Eid.
    simpl. rewrite Ehyp, Ehref. simpl.
    eexists. split; [reflexivity|]. split.
    + rewrite lookup_modify_eq. f_equal.
      pose proof (a_update_label n href
                    (default empty_record (lookup key data))) as Hl.
      pose proof (a_update_node n href
                    (default empty_record (lookup key data))) as Hn.
      pose proof (a_update_url n href
                    (default empty_record (lookup key data))) as Hu.
      destruct (a_update n href _) as [l' n' u']. simpl in *. subst.
      unfold label_of. by destruct (lookup key data).
    + intros k Hk. by apply lookup_modify_ne.
Qed.

(** The anchor of the sample page, visited on an empty accumulation. *)
Lemma visit_a_effect_witness :
  exists data',
    visit_a Sample.foo_anchor [] = Ok data' /\
    lookup "Foo" data'
    = Some {| d_label := Some "First"; d_node := Some Sample.foo_anchor;
              d_url := Some "/foo.pdf" |}.
Proof.
  destruct (visit_a_effect Sample.foo_anchor []) as [_ Hmatch].
  destruct (Hmatch "ctl00_hypFoo" "/foo.pdf" "Foo" eq_refl eq_refl eq_refl)
    as (data' & Hv & Hl & _).
  exists data'. split; [exact Hv|]. rewrite Hl. vm_compute. reflexivity.
Defined.

(** C9, counterexample. The rendered text of the anchor has no white
    space around it and no colon at its end, and the label is not that
    text: the colon at its start is gone. *)
Lemma anchor_label_loses_leading_colon :
  TextRenderer.render Sample.colon_anchor = ":Agenda" /\
  exists data',
    visit_a Sample.colon_anchor [] = Ok data' /\
    label_of data' "Agenda" = Some "Agenda".
Proof. split; [|eexists; split]; vm_compute; reflexivity. Qed.

Lemma foldM_raise_at {A S : Type} (f : A -> S -> res S)
    (pre post : list A) (x : A) (s : S) :
  (forall s', exists e, f x s' = Raise e) ->
  exists e, foldM f (pre ++ x :: post)%list s = Raise e.
Proof.
  intros Hx. rewrite foldM_app.
  destruct (foldM f pre s) as [s'|e]; simpl; [|eauto].
  destruct (Hx s') as [e ->]. simpl. eauto.
Qed.

(** C10. A span whose identifier matches [_lbl<slug>X] always reads the
    text of its first child. Without children the handler raises
    [IndexError]; the traversal of a tree that holds such a span ends in
    an exception, which is this [IndexError] when the nodes before it
    were visited without one. *)
Theorem label_span_reads_first_child
    (n : Node) (data : ddict) (id key : string) :
  items n !! "id" = Some id ->
  Re.search_lbl_X id = Some key ->
  (forall c rest, children n = c :: rest ->
     visit_span n data
     = text ← getitem "text" c;
       Ok (modify key
             (set_label (PyStr.strip_colon (PyStr.strip text))) data)) /\
  (children n = [] ->
     visit_span n data = Raise IndexError /\
     forall root pre post,
       items n !! "tag" = Some "span" ->
       preorder root = (pre ++ n :: post)%list ->
       (exists e, visit root = Raise e) /\
       (forall before, foldM visit_node pre [] = Ok before ->
          visit root = Raise IndexError)).
Proof.
  intros Eid EX.
  assert (Hspan : forall d, visit_span n d
                    = label ← span_label n;
                      Ok (modify key (set_label label) d)).
  { intros d. unfold visit_span, getitem.
    by rewrite (has_key_Some _ _ _ Eid), Eid; simpl; rewrite EX. }
  split.
  - intros c rest Hch. rewrite Hspan. unfold span_label, first_child.
    rewrite Hch. simpl. by destruct (getitem "text" c).
  - intros Hch.
    assert (Hraise : forall d, visit_span n d = Raise IndexError).
    { intros d. rewrite Hspan. unfold span_label, first_child.
      by rewrite Hch. }
    split; [apply Hraise|]. intros root pre post Htag Hpre.
    assert (Hnode : forall d, visit_node n d = Raise IndexError).
    { intros d. unfold visit_node, getitem. rewrite Htag. simpl.
      apply Hraise. }
    unfold visit. rewrite visit_nodes_preorder, Hpre. split.
    + destruct (foldM_raise_at visit_node pre post n []) as [e He].
      { intros s'. exists IndexError. apply Hnode. }
      exists e. by rewrite He.
    + intros before Hbefore. rewrite foldM_app, Hbefore. simpl.
      by rewrite Hnode.
Qed.

(** The childless label span raises, and so does the page that holds it
    after a cell. *)
Lemma label_span_reads_first_child_witness :
  visit_span Sample.childless_label [] = Raise IndexError /\
  visit Sample.childless_page = Raise IndexError.
Proof.
  destruct (label_span_reads_first_child Sample.childless_label []
              "ctl00_lblStatusX" "Status" eq_refl eq_refl) as [_ Hempty].
  destruct (Hempty eq_refl) as [Hspan Htree].
  split; [exact Hspan|].
  destruct (Htree Sample.childless_page
              [Sample.childless_page; Sample.foo_cell] [Sample.foo_anchor]
              eq_refl eq_refl) as [_ Hfirst].
  eapply Hfirst. vm_compute. reflexivity.
Defined.

End Handlers.

(** ** The rules of the visitor, one equation *)

Section Rules.
Import DetailVisitor.

(** The visit of a node, by the rule the node falls under. *)
Lemma visit_node_rule (n : Node) (d : ddict) :
  visit_node n d
  = match items n !! "tag" with
    | None => Raise KeyError
    | Some tag =>
        match rule_of n with
        | NoRule =>
            if inherited_method tag then Raise RecursionError else Ok d
        | AnchorRule key href => Ok (modify key (a_update n href) d)
        | ValueRule key => Ok (modify key (set_node n) d)
        | LabelRule key =>
            label ← span_label n; Ok (modify key (set_label label) d)
        end
    end.
Proof.
  unfold visit_node, rule_of, getitem.
  destruct (items n !! "tag") as [tag|] eqn:Etag; simpl; [|done].
  destruct (String.eqb tag "a") eqn:Ea.
  { apply String.eqb_eq in Ea as ->. unfold visit_a, getitem.
    destruct (items n !! "id") as [id|] eqn:Eid.
    2:{ by rewrite (has_key_None _ _ Eid). }
    rewrite (has_key_Some _ _ _ Eid). simpl.
    destruct (items n !! "href") as [href|] eqn:Ehref.
    2:{ by rewrite (has_key_None _ _ Ehref). }
    rewrite (has_key_Some _ _ _ Ehref). simpl.
    by destruct (Re.search_hyp id). }
  destruct (String.eqb tag "span") eqn:Es.
  { apply String.eqb_eq in Es as ->. unfold visit_span, getitem.
    destruct (items n !! "id") as [id|] eqn:Eid.
    2:{ by rewrite (has_key_None _ _ Eid). }
    rewrite (has_key_Some _ _ _ Eid). simpl.
    destruct (Re.search_lbl_X id); [done|].
    destruct (Re.search_lbl id); [done|]. by destruct (Re.search_td id). }
  destruct (String.eqb tag "td") eqn:Et.
  { apply String.eqb_eq in Et as ->. unfold visit_td, getitem.
    destruct (items n !! "id") as [id|] eqn:Eid.
    2:{ by rewrite (has_key_None _ _ Eid). }
    rewrite (has_key_Some _ _ _ Eid). simpl.
    by destruct (Re.search_td id). }
  by destruct (items n !! "id").
Qed.

(** A visit that returns, as a change of the record of [touched]. *)
Lemma visit_node_Ok (n : Node) (d d' : ddict) :
  visit_node n d = Ok d' ->
  match rule_of n with
  | NoRule => d' = d
  | AnchorRule key href => d' = modify key (a_update n href) d
  | ValueRule key => d' = modify key (set_node n) d
  | LabelRule key =>
      exists l, span_label n = Ok l /\ d' = modify key (set_label l) d
  end.
Proof.
  rewrite visit_node_rule. destruct (items n !! "tag") as [tag|]; [|done].
  destruct (rule_of n); try (by intros [= <-]).
  - destruct (inherited_method tag); [done | by intros [= <-]].
  - destruct (span_label n) as [l|e]; simpl; [|done]. intros [= <-]. eauto.
Qed.

Lemma rule_of_label_writer (n : Node) :
  label_writer n
  = match rule_of n with LabelRule key => Some key | _ => None end.
Proof.
  unfold label_writer, rule_of.
  destruct (items n !! "tag") as [tag|]; [|done].
  destruct (items n !! "id") as [id|]; [|done].
  destruct (String.eqb tag "a") eqn:Ea.
  { apply String.eqb_eq in Ea as ->. simpl.
    by destruct (items n !! "href"), (Re.search_hyp id). }
  destruct (String.eqb tag "span").
  { destruct (Re.search_lbl_X id); [done|].
    destruct (Re.search_lbl id); [done|]. by destruct (Re.search_td id). }
  destruct (String.eqb tag "td"); [|done]. by destruct (Re.search_td id).
Qed.

End Rules.

(** ** Stripping *)

Section Stripping.
Import PyStr.
Variable p : ascii -> bool.

Lemma lstrip_clean_start (s : string) : clean_start p (lstrip p s).
Proof.
  induction s as [|c s IH]; simpl; [done|].
  destruct (p c) eqn:E; [exact IH | exact E].
Qed.

Lemma lstrip_fixed (s : string) : clean_start p s -> lstrip p s = s.
Proof. destruct s as [|c s]; simpl; [done|]. by intros ->. Qed.

Lemma rstrip_clean_start (s : string) :
  clean_start p s -> clean_start p (rstrip p s).
Proof.
  destruct s as [|c s]; simpl; [done|]. intros E. rewrite E. simpl. exact E.
Qed.

Lemma rstrip_rstrip (s : string) : rstrip p (rstrip p s) = rstrip p s.
Proof.
  induction s as [|c s IH]; simpl; [done|].
  destruct (p c && is_empty (rstrip p s)) eqn:E; simpl; [done|].
  by rewrite IH, E.
Qed.

Lemma strip_chars_clean_start (s : string) : clean_start p (strip_chars p s).
Proof. apply rstrip_clean_start, lstrip_clean_start. Qed.

Lemma strip_chars_idempotent (s : string) :
  strip_chars p (strip_chars p s) = strip_chars p s.
Proof.
  unfold strip_chars at 1.
  rewrite (lstrip_fixed _ (strip_chars_clean_start s)).
  apply rstrip_rstrip.
Qed.

Lemma clean_start_app (a b : string) :
  clean_start p a -> a <> "" -> clean_start p (a +:+ b).
Proof. by destruct a. Qed.

End Stripping.

(** ** The records of the accumulation *)

Section Records.
Import DetailVisitor.

Lemma foldM_invariant {A S : Type} (f : A -> S -> res S) (P : S -> Prop)
    (l : list A) (s s' : S) :
  (forall x s0 s1, f x s0 = Ok s1 -> P s0 -> P s1) ->
  P s -> foldM f l s = Ok s' -> P s'.
Proof.
  intros Hstep. revert s. induction l as [|x l IH]; intros s Hs Hf; simpl in Hf.
  - by injection Hf as <-.
  - apply bind_Ok in Hf as (s1 & Hx & Hf). apply (IH s1); [|done].
    by apply (Hstep x s).
Qed.

(** The record of a slug after a visit. *)
Lemma visit_node_lookup (n : Node) (d d' : ddict) (slug : string) :
  visit_node n d = Ok d' ->
  lookup slug d'
  = if decide (touched n = Some slug) then
      let old := default empty_record (lookup slug d) in
      match rule_of n with
      | NoRule => None
      | AnchorRule _ href => Some (a_update n href old)
      | ValueRule _ => Some (set_node n old)
      | LabelRule _ =>
          match span_label n with
          | Ok l => Some (set_label l old)
          | Raise _ => None
          end
      end
    else lookup slug d.
Proof.
  intros Hv. apply visit_node_Ok in Hv. unfold touched.
  destruct (rule_of n) as [|key href|key|key].
  - subst. by rewrite decide_False.
  - subst. case_decide as E.
    + injection E as ->. apply lookup_modify_eq.
    + apply lookup_modify_ne. congruence.
  - subst. case_decide as E.
    + injection E as ->. apply lookup_modify_eq.
    + apply lookup_modify_ne. congruence.
  - destruct Hv as (l & -> & ->). case_decide as E.
    + injection E as ->. apply lookup_modify_eq.
    + apply lookup_modify_ne. congruence.
Qed.

Lemma visit_node_keys (n : Node) (d d' : ddict) :
  visit_node n d = Ok d' ->
  d'.*1 = match touched n with
          | Some k => if bool_decide (k ∈ d.*1) then d.*1
                      else (d.*1 ++ [k])%list
          | None => d.*1
          end.
Proof.
  intros Hv. apply visit_node_Ok in Hv. unfold touched.
  destruct (rule_of n) as [|key href|key|key];
    [by subst | subst; apply modify_keys ..|].
  destruct Hv as (l & _ & ->). apply modify_keys.
Qed.

Lemma foldM_keys (l : list Node) (d d' : ddict) :
  foldM visit_node l d = Ok d' ->
  d'.*1 = fold_left (fun acc k => if bool_decide (k ∈ acc) then acc
                                  else (acc ++ [k])%list)
            (omap touched l) d.*1.
Proof.
  revert d. induction l as [|n l IH]; intros d Hf; simpl in Hf.
  - by injection Hf as <-.
  - apply bind_Ok in Hf as (d1 & Hn & Hf). rewrite (IH d1 Hf).
    rewrite (visit_node_keys n d d1 Hn). simpl.
    by destruct (touched n).
Qed.

(** X4. The accumulation lists the slugs in the order in which the
    traversal first meets them. *)
Theorem slug_order (root : Node) (final : ddict) :
  traverse root = Ok final ->
  final.*1 = first_seen (omap touched (preorder root)).
Proof.
  unfold traverse. rewrite visit_nodes_preorder. intros Hf.
  by rewrite (foldM_keys _ _ _ Hf).
Qed.

(** The slugs of the sample page: [Foo] once, though four nodes name it. *)
Lemma slug_order_witness :
  exists final,
    traverse Sample.foo_page = Ok final /\ final.*1 = ["Foo"].
Proof.
  destruct (traverse Sample.foo_page) as [final|e] eqn:Ht;
    [|vm_compute in Ht; discriminate].
  exists final. split; [reflexivity|].
  rewrite (slug_order Sample.foo_page final Ht). vm_compute. reflexivity.
Defined.

Lemma traverse_well_formed (root : Node) (final : ddict) (slug : string)
    (record : PartialRecord) :
  traverse root = Ok final ->
  lookup slug final = Some record ->
  (is_Some (d_label record) \/ is_Some (d_node record)) /\
  (is_Some (d_url record) ->
   is_Some (d_label record) /\ is_Some (d_node record)).
Proof.
  unfold traverse. rewrite visit_nodes_preorder. intros Hf. revert slug record.
  apply (foldM_invariant visit_node
           (fun d => forall slug record, lookup slug d = Some record ->
              (is_Some (d_label record) \/ is_Some (d_node record)) /\
              (is_Some (d_url record) ->
               is_Some (d_label record) /\ is_Some (d_node record)))
           (preorder root) [] final); [|done|done].
  clear. intros n d d' Hv Hd slug record.
  rewrite (visit_node_lookup n d d' slug Hv). case_decide as E; [|apply Hd].
  assert (Hold : is_Some (d_url (default empty_record (lookup slug d))) ->
            is_Some (d_label (default empty_record (lookup slug d)))
            /\ is_Some (d_node (default empty_record (lookup slug d)))).
  { destruct (lookup slug d) as [r|] eqn:El; simpl.
    - apply (Hd slug r El).
    - by intros [? ?]. }
  simpl. destruct (rule_of n) as [|key href|key|key]; [done|..].
  - intros [= <-]. rewrite a_update_label, a_update_node, a_update_url. eauto.
  - intros [= <-]. simpl. split; [eauto|]. intros Hu. split; [|eauto].
    by apply Hold.
  - destruct (span_label n) as [l|]; [|done]. intros [= <-]. simpl.
    split; [eauto|]. intros Hu. split; [eauto|]. by apply Hold.
Qed.

(** X5. Every record of the accumulation has a label or a node, and a
    record that has a url has both: the link target only comes with the
    anchor, which also gives its node and, when none is there, a label. *)
Theorem records_well_formed (root : Node) (final : ddict) (slug : string)
    (record : PartialRecord) :
  traverse root = Ok final ->
  lookup slug final = Some record ->
  (is_Some (d_label record) \/ is_Some (d_node record)) /\
  (is_Some (d_url record) ->
   is_Some (d_label record) /\ is_Some (d_node record)).
Proof. apply traverse_well_formed. Qed.

(** The record of [Foo] on the sample page has all three attributes. *)
Lemma records_well_formed_witness :
  exists final record,
    traverse Sample.foo_page = Ok final /\
    lookup "Foo" final = Some record /\
    d_url record = Some "/foo.pdf" /\
    is_Some (d_label record) /\ is_Some (d_node record).
Proof.
  destruct (traverse Sample.foo_page) as [final|e] eqn:Ht;
    [|vm_compute in Ht; discriminate].
  destruct (lookup "Foo" final) as [record|] eqn:Hl.
  2:{ vm_compute in Ht. injection Ht as <-. vm_compute in Hl. discriminate. }
  exists final, record. split; [reflexivity|]. split; [exact Hl|].
  assert (Hu : d_url record = Some "/foo.pdf").
  { vm_compute in Ht. injection Ht as <-. vm_compute in Hl.
    injection Hl as <-. reflexivity. }
  split; [exact Hu|].
  apply (records_well_formed Sample.foo_page final "Foo" record Ht Hl).
  rewrite Hu. eauto.
Defined.

Lemma span_label_stripped (n : Node) (l : string) :
  span_label n = Ok l -> PyStr.strip_colon l = l.
Proof.
  unfold span_label. destruct (first_child n) as [c|]; simpl; [|done].
  destruct (getitem "text" c) as [text|]; simpl; [|done].
  intros [= <-]. apply strip_chars_idempotent.
Qed.

(** X6. A label the visitor stores has no colon at either end, so the key
    under which [finalize] files a labelled record is the label itself. *)
Theorem label_is_key (root : Node) (final : ddict) (slug l : string)
    (record : PartialRecord) :
  traverse root = Ok final ->
  lookup slug final = Some record ->
  d_label record = Some l ->
  PyStr.strip_colon l = l /\ alias_of slug record = l.
Proof.
  intros Ht Hl Hlab.
  assert (Hs : PyStr.strip_colon l = l).
  { revert slug record l Hl Hlab. unfold traverse in Ht.
    rewrite visit_nodes_preorder in Ht.
    apply (foldM_invariant visit_node
             (fun d => forall slug record l, lookup slug d = Some record ->
                d_label record = Some l -> PyStr.strip_colon l = l)
             (preorder root) [] final); [|done|done].
    clear. intros n d d' Hv Hd slug record l.
    rewrite (visit_node_lookup n d d' slug Hv).
    case_decide as E; [|apply Hd].
    assert (Hold : forall l0,
              d_label (default empty_record (lookup slug d)) = Some l0 ->
              PyStr.strip_colon l0 = l0).
    { destruct (lookup slug d) as [r|] eqn:El; simpl; [|done].
      intros l0. apply (Hd slug r l0 El). }
    simpl. destruct (rule_of n) as [|key href|key|key]; [done|..].
    - intros [= <-]. rewrite a_update_label.
      destruct (d_label (default empty_record (lookup slug d))) as [l0|];
        simpl; intros [= <-]; [by apply Hold|].
      apply strip_chars_idempotent.
    - intros [= <-]. simpl. apply Hold.
    - destruct (span_label n) as [l1|] eqn:Hsp; [|done]. intros [= <-]. simpl.
      intros [= <-]. by apply (span_label_stripped n). }
  split; [exact Hs|]. unfold alias_of. rewrite Hlab. exact Hs.
Qed.

(** The label of [Foo] on the sample page is its key. *)
Lemma label_is_key_witness :
  exists final record,
    traverse Sample.foo_page = Ok final /\
    lookup "Foo" final = Some record /\
    alias_of "Foo" record = "Second".
Proof.
  destruct (traverse Sample.foo_page) as [final|e] eqn:Ht;
    [|vm_compute in Ht; discriminate].
  destruct (lookup "Foo" final) as [record|] eqn:Hl.
  2:{ vm_compute in Ht. injection Ht as <-. vm_compute in Hl. discriminate. }
  exists final, record. split; [reflexivity|]. split; [exact Hl|].
  apply (label_is_key Sample.foo_page final "Foo" "Second" record Ht Hl).
  vm_compute in Ht. injection Ht as <-. vm_compute in Hl.
  injection Hl as <-. reflexivity.
Defined.

(** X7. The traversal never removes a slug and never unsets an attribute:
    what a record holds after a prefix of the nodes, the record of the
    same slug holds at the end, possibly with another value. *)
Theorem fields_never_unset (root : Node) (final mid : ddict)
    (pre post : list Node) (slug : string) (record : PartialRecord) :
  traverse root = Ok final ->
  preorder root = (pre ++ post)%list ->
  foldM visit_node pre [] = Ok mid ->
  lookup slug mid = Some record ->
  exists record',
    lookup slug final = Some record' /\
    (is_Some (d_label record) -> is_Some (d_label record')) /\
    (is_Some (d_node record) -> is_Some (d_node record')) /\
    (is_Some (d_url record) -> is_Some (d_url record')).
Proof.
  unfold traverse. rewrite visit_nodes_preorder. intros Ht Hsplit Hpre Hl.
  rewrite Hsplit, foldM_app, Hpre in Ht. simpl in Ht.
  apply (foldM_invariant visit_node
           (fun d => exists record',
              lookup slug d = Some record' /\
              (is_Some (d_label record) -> is_Some (d_label record')) /\
              (is_Some (d_node record) -> is_Some (d_node record')) /\
              (is_Some (d_url record) -> is_Some (d_url record')))
           post mid final); [|by exists record|done].
  clear -record. intros n d d' Hv (r & Hr & Hlab & Hnode & Hurl).
  rewrite (visit_node_lookup n d d' slug Hv), Hr. simpl.
  case_decide as E; [|by exists r].
  destruct (rule_of n) as [|key href|key|key] eqn:Hrule.
  - unfold touched in E. by rewrite Hrule in E.
  - eexists. split; [reflexivity|].
    rewrite a_update_label, a_update_node, a_update_url. eauto.
  - eexists. split; [reflexivity|]. simpl. eauto.
  - apply visit_node_Ok in Hv. rewrite Hrule in Hv. destruct Hv as (l & -> & _).
    eexists. split; [reflexivity|]. simpl. eauto.
Qed.

(** After the anchor of the sample page the record of [Foo] has a url,
    and it still has one at the end. *)
Lemma fields_never_unset_witness :
  exists final record',
    traverse Sample.foo_page = Ok final /\
    lookup "Foo" final = Some record' /\ is_Some (d_url record').
Proof.
  destruct (traverse Sample.foo_page) as [final|e] eqn:Ht;
    [|vm_compute in Ht; discriminate].
  destruct (fields_never_unset Sample.foo_page final
              [("Foo", a_update Sample.foo_anchor "/foo.pdf" empty_record)]
              [Sample.foo_page; Sample.foo_anchor]
              [Sample.foo_label; Sample.foo_caption; Sample.foo_cell;
               Sample.foo_value]
              "Foo" (a_update Sample.foo_anchor "/foo.pdf" empty_record)
              Ht eq_refl eq_refl eq_refl)
    as (record' & Hl & _ & _ & Hurl).
  exists final, record'. split; [reflexivity|]. split; [exact Hl|].
  apply Hurl. vm_compute. eauto.
Defined.

Lemma visit_node_url (n : Node) (d d' : ddict) (slug : string) :
  visit_node n d = Ok d' ->
  url_of d' slug
  = match rule_of n with
    | AnchorRule key href =>
        if decide (key = slug) then Some href else url_of d slug
    | _ => url_of d slug
    end.
Proof.
  intros Hv. unfold url_of. rewrite (visit_node_lookup n d d' slug Hv).
  unfold touched.
  assert (Hold : d_url (default empty_record (lookup slug d))
                 = lookup slug d ≫= d_url) by (by destruct (lookup slug d)).
  destruct (rule_of n) as [|key href|key|key] eqn:Hrule.
  - by rewrite decide_False.
  - destruct (decide (key = slug)) as [->|Hne].
    + rewrite decide_True by done. simpl. apply a_update_url.
    + rewrite decide_False by congruence. done.
  - case_decide; [|done]. simpl. by rewrite Hold.
  - case_decide; [|done]. apply visit_node_Ok in Hv. rewrite Hrule in Hv.
    destruct Hv as (l & -> & _). simpl. by rewrite Hold.
Qed.

Lemma foldM_url_kept (post : list Node) (d d' : ddict) (slug : string) :
  foldM visit_node post d = Ok d' ->
  Forall (fun m => anchors_slug slug m = false) post ->
  url_of d' slug = url_of d slug.
Proof.
  intros Hf Hp. revert d Hf.
  induction Hp as [|m post Hm _ IH]; intros d Hf; simpl in Hf.
  - by injection Hf as <-.
  - apply bind_Ok in Hf as (d1 & Hv & Hf). rewrite (IH d1 Hf).
    rewrite (visit_node_url m d d1 slug Hv). unfold anchors_slug in Hm.
    destruct (rule_of m); try done. case_decide; [|done].
    by rewrite bool_decide_eq_true_2 in Hm.
Qed.

(** X8. At the end of the traversal the url of a slug is the link target
    of the last anchor that names the slug, and a slug no anchor names has
    no url. *)
Theorem url_last_anchor (root : Node) (final : ddict) (slug : string) :
  traverse root = Ok final ->
  (forall pre n post href,
     preorder root = (pre ++ n :: post)%list ->
     rule_of n = AnchorRule slug href ->
     Forall (fun m => anchors_slug slug m = false) post ->
     url_of final slug = Some href) /\
  (Forall (fun m => anchors_slug slug m = false) (preorder root) ->
   url_of final slug = None).
Proof.
  unfold traverse. rewrite visit_nodes_preorder. intros Ht. split.
  - intros pre n post href Hsplit Hrule Hpost.
    rewrite Hsplit, foldM_app in Ht.
    apply bind_Ok in Ht as (before & _ & Ht). simpl in Ht.
    apply bind_Ok in Ht as (after & Hn & Ht).
    rewrite (foldM_url_kept post after final slug Ht Hpost).
    rewrite (visit_node_url n before after slug Hn), Hrule.
    by rewrite decide_True.
  - intros Hall. by rewrite (foldM_url_kept _ [] final slug Ht Hall).
Qed.

(** Of the two anchors of [Doc] the second gives the url, and the slug
    [Foo], which nothing on that page names, has none. *)
Lemma url_last_anchor_witness :
  exists final,
    traverse Sample.doc_page = Ok final /\
    url_of final "Doc" = Some "/minutes.pdf" /\ url_of final "Foo" = None.
Proof.
  destruct (traverse Sample.doc_page) as [final|e] eqn:Ht;
    [|vm_compute in Ht; discriminate].
  exists final. split; [reflexivity|]. split.
  - destruct (url_last_anchor Sample.doc_page final "Doc" Ht) as [Hlast _].
    apply (Hlast [Sample.doc_page; Sample.doc_first; Sample.doc_cell]
             Sample.doc_second [] "/minutes.pdf" eq_refl eq_refl).
    constructor.
  - destruct (url_last_anchor Sample.doc_page final "Foo" Ht) as [_ Hnone].
    apply Hnone. repeat constructor.
Defined.

Lemma visit_node_label_none (m : Node) (d d' : ddict) (slug : string) :
  visit_node m d = Ok d' ->
  anchors_slug slug m = false -> label_writer m <> Some slug ->
  label_of d slug = None -> label_of d' slug = None.
Proof.
  intros Hv Ha Hw Hl. unfold label_of in *.
  rewrite (visit_node_lookup m d d' slug Hv).
  case_decide as E; [|done].
  assert (Hold : d_label (default empty_record (lookup slug d)) = None)
    by (by destruct (lookup slug d)).
  rewrite rule_of_label_writer in Hw. unfold anchors_slug in Ha.
  unfold touched in E. destruct (rule_of m) as [|key href|key|key].
  - done.
  - injection E as ->. by rewrite bool_decide_eq_true_2 in Ha.
  - done.
  - congruence.
Qed.

(** X9. When no label span names a slug, its label is the text of the
    first anchor that names it, rendered and stripped: later anchors and
    value nodes leave it alone. *)
Theorem label_from_first_anchor (root : Node) (final : ddict)
    (pre post : list Node) (n : Node) (slug href : string) :
  traverse root = Ok final ->
  preorder root = (pre ++ n :: post)%list ->
  rule_of n = AnchorRule slug href ->
  Forall (fun m => anchors_slug slug m = false) pre ->
  Forall (fun m => label_writer m <> Some slug) (preorder root) ->
  label_of final slug
  = Some (PyStr.strip_colon (PyStr.strip (TextRenderer.render n))).
Proof.
  unfold traverse. rewrite visit_nodes_preorder.
  intros Ht Hsplit Hrule Hpre Hlab. rewrite Hsplit in Ht, Hlab.
  apply Forall_app in Hlab as [Hlab_pre Hlab_post].
  apply Forall_cons in Hlab_post as [_ Hlab_post].
  rewrite foldM_app in Ht. apply bind_Ok in Ht as (before & Hb & Ht).
  simpl in Ht. apply bind_Ok in Ht as (after & Hn & Ht).
  apply (foldM_label_kept post after final slug _ Ht Hlab_post).
  assert (Hnone : label_of before slug = None).
  { clear -Hb Hpre Hlab_pre. revert Hb.
    generalize (eq_refl : label_of [] slug = None).
    generalize (@nil (string * PartialRecord)) as d.
    induction pre as [|m pre IH]; intros d Hd Hf; simpl in Hf.
    - by injection Hf as <-.
    - apply bind_Ok in Hf as (d1 & Hm & Hf).
      apply Forall_cons in Hpre as [Hm1 Hpre].
      apply Forall_cons in Hlab_pre as [Hm2 Hlab_pre].
      apply (IH Hpre Hlab_pre d1); [|done].
      by apply (visit_node_label_none m d). }
  unfold label_of in *. rewrite (visit_node_lookup n before after slug Hn).
  unfold touched. rewrite Hrule, decide_True by done. simpl.
  rewrite a_update_label.
  by destruct (lookup slug before) as [r|]; simpl in *; rewrite ?Hnone.
Qed.

(** Of the two anchors of [Doc] the first gives the label. *)
Lemma label_from_first_anchor_witness :
  exists final,
    traverse Sample.doc_page = Ok final /\
    label_of final "Doc" = Some "Agenda".
Proof.
  destruct (traverse Sample.doc_page) as [final|e] eqn:Ht;
    [|vm_compute in Ht; discriminate].
  exists final. split; [reflexivity|].
  rewrite (label_from_first_anchor Sample.doc_page final
             [Sample.doc_page] [Sample.doc_cell; Sample.doc_second]
             Sample.doc_first "Doc" "/agenda.pdf" Ht eq_refl eq_refl).
  - reflexivity.
  - repeat constructor.
  - repeat constructor; vm_compute; discriminate.
Defined.

End Records.

(** ** The finalized mapping, key by key *)

Section FinalizedMapping.
Import DetailVisitor.

Lemma finalize_fold_last_writer (data : ddict) acc (key : string) :
  newdata (fold_left finalize_step data acc) !! key
  = match last_writer data key with
    | Some j => Some (length (objects acc) + j)
    | None => newdata acc !! key
    end.
Proof.
  revert acc. induction data as [|item data IH]; intros acc; simpl; [done|].
  rewrite IH, finalize_step_objects, length_app. simpl.
  destruct (last_writer data key) as [j|].
  - f_equal. lia.
  - rewrite finalize_step_lookup. destruct (writes item key); [|done].
    f_equal. lia.
Qed.

Lemma last_writer_own (data : ddict) (i : nat) item (key : string) :
  data !! i = Some item -> writes item key = true ->
  written_later data i key = false -> last_writer data key = Some i.
Proof.
  unfold written_later. revert i.
  induction data as [|x data IH]; intros i Hi Hw Hlate; [done|].
  destruct i as [|i]; simpl in *.
  - injection Hi as ->. rewrite Hw.
    assert (Hnone : last_writer data key = None).
    { clear -Hlate. rewrite drop_0 in Hlate.
      induction data as [|y data IH]; simpl in *; [done|].
      apply orb_false_iff in Hlate as [Hy Hd]. by rewrite (IH Hd), Hy. }
    by rewrite Hnone.
  - by rewrite (IH i Hi Hw Hlate).
Qed.

Lemma finalize_lookup_last (data : ddict) (key : string) :
  newdata (finalize data) !! key = last_writer data key.
Proof.
  unfold finalize. rewrite finalize_fold_last_writer. simpl.
  by destruct (last_writer data key).
Qed.

Lemma finalize_resolve_last (data : ddict) (key : string) :
  resolve (finalize data) key
  = (i ← last_writer data key;
     item ← data !! i;
     Some {| DetailField.data := item.2 |}).
Proof.
  unfold resolve. rewrite finalize_lookup_last.
  destruct (last_writer data key) as [i|]; simpl; [|done].
  unfold finalize. rewrite finalize_objects. simpl.
  rewrite list_lookup_fmap. by destruct (data !! i).
Qed.

(** X12. Each key of the finalized mapping holds the accessor of the last
    item stored under it, with the record of that item; a key under which
    no item is stored is absent. *)
Theorem finalize_last_writer (data : ddict) (key : string) :
  newdata (finalize data) !! key = last_writer data key /\
  resolve (finalize data) key
  = (i ← last_writer data key;
     item ← data !! i;
     Some {| DetailField.data := item.2 |}).
Proof. split; [apply finalize_lookup_last | apply finalize_resolve_last]. Qed.

Lemma writes_keys_of item (key : string) :
  writes item key = true <-> key ∈ keys_of item.
Proof.
  unfold writes, keys_of. rewrite orb_true_iff, !bool_decide_eq_true.
  case_bool_decide as E.
  - rewrite !elem_of_cons, elem_of_nil. tauto.
  - rewrite elem_of_cons, elem_of_nil, E. tauto.
Qed.

(** X13. When all the keys the items are stored under are different
    strings, [finalize] drops nothing: every record is reached by its
    label-derived key and by its slug. *)
Theorem finalize_distinct_keys (data : ddict) (i : nat) (slug : string)
    (record : PartialRecord) :
  NoDup (flat_map keys_of data) ->
  data !! i = Some (slug, record) ->
  resolve (finalize data) (alias_of slug record)
    = Some {| DetailField.data := record |} /\
  resolve (finalize data) slug = Some {| DetailField.data := record |}.
Proof.
  intros Hnd Hi.
  assert (Hown : forall key, key ∈ keys_of (slug, record) ->
            resolve (finalize data) key
            = Some {| DetailField.data := record |}).
  { intros key Hkey.
    rewrite finalize_resolve_last.
    rewrite (last_writer_own data i (slug, record) key Hi).
    - simpl. by rewrite Hi.
    - by apply writes_keys_of.
    - unfold written_later. apply not_true_is_false. intros Hex.
      apply existsb_exists in Hex as (item & Hin & Hw).
      apply writes_keys_of in Hw.
      rewrite <- (take_drop_middle data i _ Hi) in Hnd.
      rewrite flat_map_app in Hnd. simpl in Hnd.
      apply NoDup_app in Hnd as (_ & _ & Hnd).
      apply NoDup_app in Hnd as (_ & Hdisj & _).
      apply (Hdisj key Hkey). apply list_elem_of_In, in_flat_map.
      exists item. split; [exact Hin | by apply list_elem_of_In]. }
  split; apply Hown; apply writes_keys_of; unfold writes; simpl.
  - by rewrite (bool_decide_eq_true_2 _ eq_refl).
  - rewrite (bool_decide_eq_true_2 (slug = slug) eq_refl). apply orb_true_r.
Qed.

(** Both items of the sample keep their keys; the slug [Status:] is also
    reached without its colon. *)
Lemma finalize_distinct_keys_witness :
  resolve (finalize Sample.distinct_data) "Status"
    = Some {| DetailField.data := Sample.status_record |} /\
  resolve (finalize Sample.distinct_data) "Status:"
    = Some {| DetailField.data := Sample.status_record |}.
Proof.
  apply (finalize_distinct_keys Sample.distinct_data 1 "Status:"
           Sample.status_record); [|reflexivity].
  refine (bool_decide_unpack _ _). vm_compute. exact I.
Defined.

End FinalizedMapping.

(** ** The rendered text *)

Section RenderedText.
Import TextRenderer.

Lemma append_empty (a b : string) : a +:+ b = "" <-> a = "" /\ b = "".
Proof.
  destruct a as [|c a].
  - change ("" +:+ b) with b. split; [by intros -> | by intros [_ ->]].
  - change (String c a +:+ b) with (String c (a +:+ b)).
    split; [discriminate | by intros [? _]].
Qed.

Lemma append_nonempty (a b : string) : a <> "" -> a +:+ b <> "".
Proof. intros Ha Hab. by apply append_empty in Hab as [? _]. Qed.

Lemma replace_nbsp_idempotent (s : string) :
  PyStr.replace_nbsp (PyStr.replace_nbsp s) = PyStr.replace_nbsp s.
Proof.
  induction s as [|c s IH]; simpl; [done|]. rewrite IH. f_equal.
  destruct (Ascii.eqb c "160") eqn:E; [done | by rewrite E].
Qed.

Lemma lstrip_no_nbsp p (s : string) :
  PyStr.replace_nbsp s = s ->
  PyStr.replace_nbsp (PyStr.lstrip p s) = PyStr.lstrip p s.
Proof.
  induction s as [|c s IH]; simpl; [done|]. intros Hs.
  destruct (p c); [|exact Hs]. apply IH. by injection Hs.
Qed.

Lemma rstrip_no_nbsp p (s : string) :
  PyStr.replace_nbsp s = s ->
  PyStr.replace_nbsp (PyStr.rstrip p s) = PyStr.rstrip p s.
Proof.
  induction s as [|c s IH]; simpl; [done|]. intros Hs.
  injection Hs as Hc Hs.
  destruct (p c && PyStr.is_empty (PyStr.rstrip p s)); [done|].
  simpl. by rewrite Hc, (IH Hs).
Qed.

Lemma scrub_text_no_nbsp (text : string) :
  PyStr.replace_nbsp (scrub_text text) = scrub_text text.
Proof.
  unfold scrub_text, PyStr.strip, PyStr.strip_chars.
  apply rstrip_no_nbsp, lstrip_no_nbsp, replace_nbsp_idempotent.
Qed.

Lemma scrub_text_clean_start (text : string) :
  PyStr.clean_start PyStr.is_space (scrub_text text).
Proof. apply strip_chars_clean_start. Qed.

(** X15. [scrub_text] normalises: scrubbing a scrubbed text changes
    nothing, and a scrubbed text has no white space at either end. *)
Theorem scrub_text_idempotent (text : string) :
  scrub_text (scrub_text text) = scrub_text text /\
  PyStr.lstrip PyStr.is_space (scrub_text text) = scrub_text text /\
  PyStr.rstrip PyStr.is_space (scrub_text text) = scrub_text text.
Proof.
  split; [|split].
  - unfold scrub_text at 1. rewrite scrub_text_no_nbsp.
    apply strip_chars_idempotent.
  - apply lstrip_fixed, scrub_text_clean_start.
  - apply rstrip_rstrip.
Qed.

Lemma write_clean_start (s : string) (self : t) :
  PyStr.clean_start PyStr.is_space (buf self) ->
  (buf self = "" -> PyStr.clean_start PyStr.is_space s) ->
  PyStr.clean_start PyStr.is_space (buf (write s self)).
Proof.
  intros Hb Hs. simpl. destruct (buf self) as [|c b] eqn:E.
  - by apply Hs.
  - by apply clean_start_app.
Qed.

Lemma visit_nodes_clean_start (n : Node) (self : t) :
  PyStr.clean_start PyStr.is_space (buf self) ->
  PyStr.clean_start PyStr.is_space (buf (visit_nodes n self)).
Proof.
  revert self. induction n as [it ch IH] using Node_ind. intros self Hb. simpl.
  apply write_clean_start; [|intros _; apply scrub_text_clean_start].
  assert (He : PyStr.clean_start PyStr.is_space
                 (buf (generic_visit_enter (mkNode it ch) self))).
  { unfold generic_visit_enter.
    apply write_clean_start; [|intros _; apply scrub_text_clean_start].
    destruct (PyStr.is_empty (buf self)) eqn:E; [done|].
    apply write_clean_start; [done|]. intros Hempty. by rewrite Hempty in E. }
  revert He. generalize (generic_visit_enter (mkNode it ch) self).
  induction IH as [|c ch Hc _ IHch]; intros s Hs; simpl; [done|].
  apply IHch, Hc, Hs.
Qed.

(** X16. The rendered text never starts with white space: the separator
    is only written into a buffer that holds something, and what is written
    into an empty buffer is scrubbed. *)
Theorem render_no_leading_space (n : Node) :
  PyStr.lstrip PyStr.is_space (render n) = render n.
Proof.
  apply lstrip_fixed. unfold render, visit, finalize. simpl.
  by apply visit_nodes_clean_start.
Qed.

(** A node whose scrubbed text and tail are both empty. *)
Lemma visit_nodes_empty (n : Node) (self : t) :
  buf (visit_nodes n self) = ""
  <-> buf self = ""
      /\ Forall (fun m => scrub_text (get "text" "" m) = ""
                         /\ scrub_text (get "tail" "" m) = "")
           (DetailVisitor.preorder n).
Proof.
  revert self. induction n as [it ch IH] using Node_ind. intros self. simpl.
  rewrite append_empty, Forall_cons.
  assert (Hfold : forall s,
            buf (fold_left (fun s c => visit_nodes c s) ch s) = ""
            <-> buf s = ""
                /\ Forall (fun m => scrub_text (get "text" "" m) = ""
                                   /\ scrub_text (get "tail" "" m) = "")
                     (flat_map DetailVisitor.preorder ch)).
  { induction IH as [|c ch Hc _ IHch]; intros s; simpl.
    - rewrite Forall_nil. tauto.
    - rewrite IHch, Hc, Forall_app. tauto. }
  rewrite Hfold, generic_visit_enter_buf, !append_empty.
  unfold separator. destruct (buf self); simpl; [tauto|].
  split; [by intros [[[? _] _] _] | by intros [? _]].
Qed.

(** X17. The rendered text is empty exactly when the scrubbed text and the
    scrubbed tail of every node of the subtree are empty. *)
Theorem render_empty_iff (n : Node) :
  render n = ""
  <-> Forall (fun m => scrub_text (get "text" "" m) = ""
                       /\ scrub_text (get "tail" "" m) = "")
        (DetailVisitor.preorder n).
Proof.
  unfold render, visit, finalize. simpl. rewrite visit_nodes_empty. simpl.
  tauto.
Qed.

Lemma visit_nodes_flat (n : Node) (self : t) :
  buf self <> "" ->
  buf (visit_nodes n self) = buf self +:+ " " +:+ flat_text n.
Proof.
  revert self. induction n as [it ch IH] using Node_ind. intros self Hb.
  assert (Hfold : forall s, buf s <> "" ->
            buf (fold_left (fun s c => visit_nodes c s) ch s)
            = buf s +:+ fold_right (fun c acc => " " +:+ flat_text c +:+ acc)
                          "" ch).
  { induction IH as [|c ch Hc _ IHch]; intros s Hs; simpl.
    - by rewrite append_nil_r.
    - rewrite IHch; rewrite (Hc s Hs); [|by apply append_nonempty].
      by rewrite !append_assoc. }
  simpl. rewrite Hfold.
  - rewrite generic_visit_enter_buf, (separator_nonempty _ Hb).
    by rewrite !append_assoc.
  - rewrite generic_visit_enter_buf. by apply append_nonempty.
Qed.

(** X18. Into a buffer that holds something, the visit of a node appends
    one space and then [flat_text] of the node, a string that depends on
    the node alone; and a node whose own scrubbed text is not empty
    renders as its [flat_text]. *)
Theorem render_flat_text (n : Node) :
  (forall self, buf self <> "" ->
     buf (visit_nodes n self) = buf self +:+ " " +:+ flat_text n) /\
  (scrub_text (get "text" "" n) <> "" -> render n = flat_text n).
Proof.
  split; [intros self; apply visit_nodes_flat|].
  destruct n as [it ch]. intros Ht. unfold render, visit, finalize. simpl.
  set (s0 := generic_visit_enter (mkNode it ch) init).
  assert (Hs0 : buf s0 = scrub_text (get "text" "" (mkNode it ch))).
  { unfold s0. by rewrite generic_visit_enter_buf. }
  assert (Hfold : forall l s, buf s <> "" ->
            buf (fold_left (fun s c => visit_nodes c s) l s)
            = buf s +:+ fold_right (fun c acc => " " +:+ flat_text c +:+ acc)
                          "" l).
  { induction l as [|c l IHl]; intros s Hs; simpl.
    - by rewrite append_nil_r.
    - rewrite IHl; rewrite (visit_nodes_flat c s Hs);
        [|by apply append_nonempty].
      by rewrite !append_assoc. }
  rewrite Hfold, Hs0; [|by rewrite Hs0]. by rewrite !append_assoc.
Qed.

(** The sample paragraph: its text, its leaves each after one space, its
    tail. *)
Lemma render_flat_text_witness :
  render Sample.para = "Meeting ofthe Boardend".
Proof.
  destruct (render_flat_text Sample.para) as [_ ->]; [reflexivity|].
  vm_compute. discriminate.
Defined.

End RenderedText.

(** ** The patterns *)

Section Patterns.
Import Re.

Lemma after_literal_app (lit s rest : string) :
  after_literal lit s = Some rest -> s = lit +:+ rest.
Proof.
  revert s. induction lit as [|a lit IH]; intros s; simpl.
  - by intros [= ->].
  - destruct s as [|b s]; [done|].
    destruct (Ascii.eqb_spec a b) as [->|]; [|done]. intros H.
    change (String b s = String b (lit +:+ rest)). by rewrite (IH s H).
Qed.

Lemma after_literal_complete (lit rest : string) :
  after_literal lit (lit +:+ rest) = Some rest.
Proof.
  induction lit as [|a lit IH]; [by destruct rest|].
  change (after_literal (String a lit) (String a (lit +:+ rest)) = Some rest).
  simpl. by rewrite Ascii.eqb_refl.
Qed.

Lemma dot_star_split (s : string) :
  exists post,
    s = dot_star s +:+ post /\
    dot_star (dot_star s) = dot_star s /\ dot_star post = "".
Proof.
  induction s as [|c s (post & Hs & Hk & Hp)]; simpl.
  - by exists "".
  - destruct (is_newline c) eqn:E.
    + exists (String c s). simpl. by rewrite E.
    + exists post. simpl. rewrite E, Hk.
      change (String c s = String c (dot_star s +:+ post) /\
              String c (dot_star s) = String c (dot_star s) /\
              dot_star post = ""). by rewrite <- Hs.
Qed.

Lemma search_found f (s g : string) :
  search f s = Some g -> exists pre s', s = pre +:+ s' /\ f s' = Some g.
Proof.
  induction s as [|c s IH]; simpl.
  - destruct (f "") eqn:E; [|done]. intros [= <-]. by exists "", "".
  - destruct (f (String c s)) eqn:E.
    + intros [= <-]. by exists "", (String c s).
    + intros (pre & s' & -> & Hf)%IH. by exists (String c pre), s'.
Qed.

Lemma search_complete f (pre s' g : string) :
  f s' = Some g -> is_Some (search f (pre +:+ s')).
Proof.
  intros Hf. induction pre as [|c pre IH].
  - change ("" +:+ s') with s'. destruct s'; simpl; rewrite Hf; eauto.
  - change (String c pre +:+ s') with (String c (pre +:+ s')). simpl.
    destruct (f (String c (pre +:+ s'))); eauto.
Qed.

Lemma greedy_captures (lit id key : string) :
  search (fun s => after_literal lit s ≫= dot_plus) id = Some key ->
  captures lit id key.
Proof.
  intros (pre & s' & -> & Hf)%search_found.
  destruct (after_literal lit s') as [rest|] eqn:Hlit; simpl in Hf; [|done].
  apply after_literal_app in Hlit as ->.
  destruct (dot_star_split rest) as (post & Hrest & Hk & Hp).
  unfold dot_plus in Hf. exists pre, post.
  destruct (dot_star rest) as [|c k] eqn:E; [done|].
  injection Hf as <-. by rewrite <- Hrest.
Qed.

Lemma greedy_matches (lit id : string) :
  is_Some (search (fun s => after_literal lit s ≫= dot_plus) id)
  <-> exists pre c rest,
        id = pre +:+ lit +:+ String c rest /\ is_newline c = false.
Proof.
  split.
  - intros [key (pre & s' & -> & Hf)%search_found].
    destruct (after_literal lit s') as [rest|] eqn:Hlit; simpl in Hf; [|done].
    apply after_literal_app in Hlit as ->. unfold dot_plus in Hf.
    destruct rest as [|c rest]; [done|]. simpl in Hf.
    destruct (is_newline c) eqn:E; [done|]. by exists pre, c, rest.
  - intros (pre & c & rest & -> & Hc).
    apply (search_complete _ pre _ (String c (dot_star rest))).
    rewrite after_literal_complete. simpl. unfold dot_plus. simpl.
    by rewrite Hc.
Qed.

(** X19. What the three greedy patterns capture: the identifier holds the
    marker ([_hyp], [_lbl] or [_td]) followed by the slug, the slug is not
    empty and runs to the end of the identifier or to its first line feed;
    and a pattern matches exactly when the marker occurs in the identifier
    before a character that is not a line feed. *)
Theorem greedy_patterns (id : string) :
  (forall key, search_hyp id = Some key -> captures "_hyp" id key) /\
  (forall key, search_lbl id = Some key -> captures "_lbl" id key) /\
  (forall key, search_td id = Some key -> captures "_td" id key) /\
  (is_Some (search_hyp id)
   <-> exists pre c rest,
         id = pre +:+ "_hyp" +:+ String c rest /\ is_newline c = false) /\
  (is_Some (search_lbl id)
   <-> exists pre c rest,
         id = pre +:+ "_lbl" +:+ String c rest /\ is_newline c = false) /\
  (is_Some (search_td id)
   <-> exists pre c rest,
         id = pre +:+ "_td" +:+ String c rest /\ is_newline c = false).
Proof.
  repeat split; try (intros key; apply greedy_captures);
    try (apply greedy_matches).
Qed.

(** The identifier the source gives as its example. *)
Lemma greedy_patterns_witness :
  captures "_lbl" "ctl00_contentPlaceholder_lblTxt" "Txt".
Proof.
  destruct (greedy_patterns "ctl00_contentPlaceholder_lblTxt")
    as (_ & Hlbl & _).
  apply Hlbl. reflexivity.
Defined.

Lemma until_X_found (s k : string) :
  until_X s = Some k ->
  exists post,
    s = k +:+ "X" +:+ post /\
    Forall (fun a => Ascii.eqb a "X" = false /\ is_newline a = false)
      (list_ascii_of_string k).
Proof.
  revert k. induction s as [|c s IH]; intros k; simpl; [done|].
  destruct (Ascii.eqb_spec c "X") as [->|Hc].
  - intros [= <-]. exists s. split; [done | constructor].
  - destruct (is_newline c) eqn:E; [done|].
    destruct (until_X s) as [k'|]; simpl; [|done]. intros [= <-].
    destruct (IH k' eq_refl) as (post & -> & Hk). exists post.
    split; [done|]. simpl. constructor; [|done].
    split; [|done]. by apply Ascii.eqb_neq.
Qed.

Lemma lazy_implies_greedy (s : string) :
  is_Some (dot_plus_lazy_X s) -> is_Some (dot_plus s).
Proof.
  destruct s as [|c s]; simpl; [by intros [? ?]|].
  unfold dot_plus. simpl. destruct (is_newline c); [by intros [? ?]|]. eauto.
Qed.

(** X20. What the label pattern captures: after [_lbl] a slug of at least
    one character, without a line feed and with no [X] after its first
    character, and then an [X]. Every identifier it matches is also
    matched by the value pattern [_lbl(.+)], so that [visit_span] has to
    try the label pattern first. *)
Theorem label_pattern (id : string) :
  (forall key, search_lbl_X id = Some key -> captures_lazy "_lbl" id key) /\
  (is_Some (search_lbl_X id) -> is_Some (search_lbl id)).
Proof.
  split.
  - intros key (pre & s' & -> & Hf)%search_found.
    destruct (after_literal "_lbl" s') as [rest|] eqn:Hlit; simpl in Hf;
      [|done].
    apply after_literal_app in Hlit as ->.
    destruct rest as [|c rest]; simpl in Hf; [done|].
    destruct (is_newline c) eqn:E; [done|].
    destruct (until_X rest) as [k|] eqn:Hk; simpl in Hf; [|done].
    injection Hf as <-.
    apply until_X_found in Hk as (post & -> & Hk).
    by exists pre, post, c, k.
  - intros [key (pre & s' & -> & Hf)%search_found].
    destruct (after_literal "_lbl" s') as [rest|] eqn:Hlit; simpl in Hf;
      [|done].
    destruct (lazy_implies_greedy rest) as [g Hg]; [eauto|].
    apply (search_complete _ pre s' g). by rewrite Hlit.
Qed.

(** The label identifier of the sample page. *)
Lemma label_pattern_witness :
  captures_lazy "_lbl" "ctl00_lblFooX" "Foo" /\
  is_Some (search_lbl "ctl00_lblFooX").
Proof.
  destruct (label_pattern "ctl00_lblFooX") as [Hcap Himp].
  split; [apply Hcap; reflexivity | apply Himp; vm_compute; eauto].
Defined.

End Patterns.

(** ** Links *)

Section Links.
Import DetailField.
Context `{Env}.

(** X21. With a node in place, [get_url] returns the link target of the
    first node that has one among those [find] yields, and nothing exactly
    when none of them has one. *)
Theorem get_url_first_href (self : t) (n : Node) :
  d_node (data self) = Some n ->
  (get_url self = Ok None
   <-> Forall (fun d => items d !! "href" = None) (find n)) /\
  (forall href,
     get_url self = Ok (Some href)
     <-> exists l1 d l2,
           find n = (l1 ++ d :: l2)%list /\
           Forall (fun d => items d !! "href" = None) l1 /\
           items d !! "href" = Some href).
Proof.
  intros Hn. unfold get_url, node. rewrite Hn. simpl. split.
  - rewrite <- get_url_loop_None. split; [by intros [= ->] | by intros ->].
  - intros href. rewrite <- get_url_loop_Some.
    split; [by intros [= ->] | by intros ->].
Qed.

End Links.

Section LinksSample.
Import DetailField.

(** The cell of the icon sample: its link is the first node with a
    target. *)
Lemma get_url_first_href_witness :
  @get_url Sample.env_text_undefined
    {| data := {| d_label := None; d_node := Some Sample.icon_cell;
                  d_url := None |} |}
  = Ok (Some "/agenda.pdf").
Proof.
  apply (@get_url_first_href Sample.env_text_undefined
           {| data := {| d_label := None; d_node := Some Sample.icon_cell;
                         d_url := None |} |}
           Sample.icon_cell eq_refl).
  exists [Sample.icon_cell], Sample.icon_link,
         [Sample.nd [("tag", "img")] []; Sample.icon_image].
  split; [reflexivity|]. split; [|reflexivity].
  repeat constructor.
Defined.

End LinksSample.

(** ** Failures and provenance *)

Section Provenance.
Import DetailVisitor.

Lemma span_label_returns (n : Node) :
  (exists l, span_label n = Ok l)
  <-> match children n with
      | c :: _ => has_key "text" c = true
      | [] => False
      end.
Proof.
  unfold span_label, first_child, getitem.
  destruct (children n) as [|c ch]; simpl.
  - split; [by intros [? ?] | done].
  - destruct (items c !! "text") as [text|] eqn:E; simpl.
    + rewrite (has_key_Some _ _ _ E). split; eauto.
    + rewrite (has_key_None _ _ E). split; [by intros [? ?] | done].
Qed.

Lemma span_label_raises (n : Node) (e : exn) :
  span_label n = Raise e -> e = KeyError \/ e = IndexError.
Proof.
  unfold span_label, first_child, getitem.
  destruct (children n) as [|c ch]; simpl; [intros [= <-]; by right|].
  destruct (items c !! "text"); simpl; [done|]. intros [= <-]. by left.
Qed.

Lemma visit_node_returns (n : Node) (d : ddict) :
  (exists d', visit_node n d = Ok d') <-> visitable n = true.
Proof.
  rewrite visit_node_rule. unfold visitable.
  destruct (items n !! "tag") as [tag|] eqn:Etag.
  2:{ split; [by intros [? ?] | done]. }
  destruct (rule_of n); [|by split; eauto ..|].
  { destruct (inherited_method tag); simpl; [|by split; eauto].
    split; [by intros [? ?] | done]. }
  pose proof (span_label_returns n) as Hsp.
  destruct (span_label n) as [l|e] eqn:El; simpl.
  - split; [intros _ | eauto].
    destruct (children n); [exfalso; apply Hsp; eauto | apply Hsp; eauto].
  - split; [by intros [? ?]|]. intros Hc.
    destruct (children n); [done|]. apply Hsp in Hc as [? ?]. done.
Qed.

Lemma visit_node_exn (n : Node) (d : ddict) (e : exn) :
  visit_node n d = Raise e ->
  e = KeyError \/ e = IndexError \/ e = RecursionError.
Proof.
  rewrite visit_node_rule. destruct (items n !! "tag") as [tag|];
    [|intros [= <-]; by left].
  destruct (rule_of n); try done.
  - destruct (inherited_method tag); [|done]. intros [= <-]. by right; right.
  - destruct (span_label n) as [l|e'] eqn:El; simpl; [done|].
    intros [= <-]. destruct (span_label_raises n _ El) as [->| ->]; auto.
Qed.

Lemma foldM_returns (l : list Node) (d : ddict) :
  (exists d', foldM visit_node l d = Ok d')
  <-> Forall (fun n => visitable n = true) l.
Proof.
  revert d. induction l as [|n l IH]; intros d; simpl.
  - rewrite Forall_nil. split; eauto.
  - rewrite Forall_cons, <- (visit_node_returns n d). split.
    + intros [d' (d1 & Hn & Hf)%bind_Ok]. split; [eauto|].
      apply (IH d1). eauto.
    + intros [[d1 Hn] Hl]. rewrite Hn. simpl. by apply IH.
Qed.

Lemma foldM_exn (l : list Node) (d : ddict) (e : exn) :
  foldM visit_node l d = Raise e ->
  exists n, n ∈ l /\ visitable n = false /\
    (e = KeyError \/ e = IndexError \/ e = RecursionError).
Proof.
  revert d. induction l as [|n l IH]; intros d; simpl; [done|].
  destruct (visit_node n d) as [d1|e1] eqn:Hn; simpl.
  - intros (m & Hm & Hv)%IH. exists m. split; [by right | done].
  - intros [= <-]. exists n. split; [by left|]. split.
    + destruct (visitable n) eqn:Hv; [|done].
      apply (visit_node_returns n d) in Hv as [d' Hd']. congruence.
    + by apply (visit_node_exn n d).
Qed.

(** X11. The traversal returns exactly when every node of the tree has a
    tag that names no method the visitor inherits and every label span has
    a first child that has a text; the only exceptions it raises are
    [KeyError], [IndexError] and [RecursionError], and a node whose tag
    names an inherited method, met before any other failure, makes it
    raise [RecursionError]. *)
Theorem traverse_returns_iff (root : Node) :
  ((exists final, traverse root = Ok final)
   <-> Forall (fun n => visitable n = true) (preorder root)) /\
  (forall e, traverse root = Raise e ->
     e = KeyError \/ e = IndexError \/ e = RecursionError) /\
  (forall before n after tag,
     preorder root = (before ++ n :: after)%list ->
     Forall (fun m => visitable m = true) before ->
     items n !! "tag" = Some tag -> inherited_method tag = true ->
     traverse root = Raise RecursionError).
Proof.
  unfold traverse. rewrite visit_nodes_preorder. split; [|split].
  - apply foldM_returns.
  - intros e (n & _ & _ & He)%foldM_exn. done.
  - intros before n after tag -> Hb Htag Hinh.
    rewrite foldM_app.
    apply (foldM_returns before []) in Hb as [d1 ->]. simpl.
    assert (Hn : visit_node n d1 = Raise RecursionError); [|by rewrite Hn].
    unfold visit_node, getitem. rewrite Htag. simpl.
    destruct (String.eqb tag "a") eqn:Ea;
      [apply String.eqb_eq in Ea as ->; done|].
    destruct (String.eqb tag "span") eqn:Es;
      [apply String.eqb_eq in Es as ->; done|].
    destruct (String.eqb tag "td") eqn:Et;
      [apply String.eqb_eq in Et as ->; done|].
    by rewrite Hinh.
Qed.

Lemma foldM_node_from (l : list Node) (d d' : ddict) (slug : string)
    (n : Node) :
  foldM visit_node l d = Ok d' ->
  node_of d' slug = Some n ->
  node_of d slug = Some n \/ (n ∈ l /\ touched n = Some slug).
Proof.
  revert d. induction l as [|m l IH]; intros d Hf Hn; simpl in Hf.
  - injection Hf as <-. by left.
  - apply bind_Ok in Hf as (d1 & Hm & Hf).
    destruct (IH d1 Hf Hn) as [Hd1|[Hin Ht]]; [|right; split; [by right|done]].
    unfold node_of in *. rewrite (visit_node_lookup m d d1 slug Hm) in Hd1.
    case_decide as E; [|by left]. simpl in Hd1.
    assert (Hold : d_node (default empty_record (lookup slug d))
                   = lookup slug d ≫= d_node) by (by destruct (lookup slug d)).
    destruct (rule_of m) as [|key href|key|key] eqn:Hrule.
    + done.
    + simpl in Hd1. rewrite a_update_node in Hd1. injection Hd1 as <-.
      right. split; [by left | done].
    + simpl in Hd1. injection Hd1 as <-. right. split; [by left | done].
    + destruct (span_label m); [|done]. simpl in Hd1. left. by rewrite <- Hold.
Qed.

(** X10. The node a record holds at the end of the traversal is a node of
    the tree, and its identifier names the slug of the record. *)
Theorem stored_node_from_tree (root : Node) (final : ddict) (slug : string)
    (n : Node) :
  traverse root = Ok final ->
  node_of final slug = Some n ->
  n ∈ preorder root /\ touched n = Some slug.
Proof.
  unfold traverse. rewrite visit_nodes_preorder. intros Hf Hn.
  by destruct (foldM_node_from _ _ _ slug n Hf Hn) as [?|?].
Qed.

(** The value span of the sample page is the node of [Foo]. *)
Lemma stored_node_from_tree_witness :
  exists final,
    traverse Sample.foo_page = Ok final /\
    node_of final "Foo" = Some Sample.foo_value /\
    Sample.foo_value ∈ preorder Sample.foo_page.
Proof.
  destruct (traverse Sample.foo_page) as [final|e] eqn:Ht;
    [|vm_compute in Ht; discriminate].
  assert (Hn : node_of final "Foo" = Some Sample.foo_value).
  { vm_compute in Ht. injection Ht as <-. vm_compute. reflexivity. }
  exists final. split; [reflexivity|]. split; [exact Hn|].
  apply (stored_node_from_tree Sample.foo_page final "Foo" Sample.foo_value
           Ht Hn).
Defined.

(** The sample page is traversed to its end; the page with an element
    whose tag is [node] ends in [RecursionError]. *)
Lemma traverse_returns_iff_witness :
  (exists final, traverse Sample.foo_page = Ok final) /\
  traverse Sample.node_page = Raise RecursionError.
Proof.
  split.
  - apply (traverse_returns_iff Sample.foo_page). repeat constructor.
  - destruct (traverse_returns_iff Sample.node_page) as (_ & _ & Hrec).
    apply (Hrec [Sample.node_page; Sample.foo_cell] Sample.node_element
                [Sample.foo_value] "node");
      [reflexivity | repeat constructor | reflexivity | reflexivity].
Defined.

Lemma lookup_of_item (d : ddict) (i : nat) (slug : string)
    (record : PartialRecord) :
  NoDup d.*1 -> d !! i = Some (slug, record) -> lookup slug d = Some record.
Proof.
  revert i. induction d as [|[k r] d IH]; intros i Hnd Hi; [done|].
  rewrite fmap_cons in Hnd. apply NoDup_cons in Hnd as [Hk Hnd]. simpl.
  destruct i as [|i]; simpl in Hi.
  - injection Hi as -> ->. by rewrite String.eqb_refl.
  - destruct (String.eqb_spec k slug) as [->|_]; [|by apply (IH i)].
    exfalso. apply Hk. apply list_elem_of_fmap. exists (slug, record).
    split; [done|]. by apply list_elem_of_lookup_2 in Hi.
Qed.

(** X14. A field of the visitor's result that has a url can always be
    rendered: its record has a label and a node, the node belongs to the
    tree, and [get_text] returns. *)
Theorem linked_field_renders (root : Node) (r : finalized) (key : string)
    (field : DetailField.t) :
  visit root = Ok r ->
  resolve r key = Some field ->
  is_Some (d_url (DetailField.data field)) ->
  exists n v,
    d_node (DetailField.data field) = Some n /\
    n ∈ preorder root /\
    is_Some (d_label (DetailField.data field)) /\
    DetailField.get_text field = Ok v.
Proof.
  unfold visit. fold (traverse root).
  destruct (traverse root) as [final|e] eqn:Ht; simpl; [|done].
  intros [= <-] Hres Hurl. rewrite finalize_resolve_last in Hres.
  destruct (last_writer final key) as [i|]; simpl in Hres; [|done].
  destruct (final !! i) as [[slug record]|] eqn:Hi; simpl in Hres; [|done].
  injection Hres as <-. simpl in *.
  pose proof (traverse_keys root final Ht) as [Hnd _].
  pose proof (lookup_of_item final i slug record Hnd Hi) as Hl.
  destruct (traverse_well_formed root final slug record Ht Hl) as [_ Hwf].
  destruct (Hwf Hurl) as [Hlab [n Hn]].
  assert (Hin : n ∈ preorder root).
  { unfold traverse in Ht. rewrite visit_nodes_preorder in Ht.
    destruct (foldM_node_from _ _ _ slug n Ht) as [?|[? _]]; [|done|done].
    unfold node_of. by rewrite Hl. }
  exists n. unfold DetailField.get_text, DetailField.node. simpl. rewrite Hn.
  simpl.
  destruct (String.eqb (TextRenderer.render n) "Not available");
    eexists; repeat split; eauto.
Qed.

(** The field [Agenda] of the two-anchor page. *)
Lemma linked_field_renders_witness :
  exists r field v,
    visit Sample.doc_page = Ok r /\
    resolve r "Agenda" = Some field /\
    DetailField.get_text field = Ok v.
Proof.
  destruct (visit Sample.doc_page) as [r|e] eqn:Hv;
    [|vm_compute in Hv; discriminate].
  destruct (resolve r "Agenda") as [field|] eqn:Hr.
  2:{ vm_compute in Hv. injection Hv as <-. vm_compute in Hr. discriminate. }
  destruct (linked_field_renders Sample.doc_page r "Agenda" field Hv Hr)
    as (n & v & _ & _ & _ & Ht).
  { vm_compute in Hv. injection Hv as <-. vm_compute in Hr.
    injection Hr as <-. simpl. eauto. }
  exists r, field, v. by repeat split.
Defined.

End Provenance.
